(** * Secret cache and retrieval adapter, and its HTTP boundary

    A shallow embedding of [src/config/secrets.js], [src/routes/secrets.js]
    and [src/middleware/errorHandler.js].

    - JavaScript values that reach the program from outside are JSON values
      ([Js.JsonValue]); plain objects used as dictionaries are [Js.JsObject]
      (own properties as a [gmap], plus the prototype slot that an
      assignment to the key [__proto__] touches); the [Map] that holds the
      cache is a [gmap].
    - Effects are threaded through a state-and-exception monad [M] over a
      [World]: the cache, the number of [Date.now()] readings taken so far,
      the commands sent upstream, and the adapter functions entered.
    - What lives outside the repository is a parameter of the development:
      [JSON.parse], [Buffer.from(_, 'base64').toString('utf-8')],
      [decodeURIComponent], the wall clock and the secret store.
    - [listSecrets] and the route [GET /secrets] read and write none of
      that state; they are functions of the reply of the secret store. *)

From stdpp Require Import gmap strings list fin_maps.
From Stdlib Require Import ZArith QArith.

Set Warnings "-register-all".

Local Open Scope string_scope.
Local Open Scope Z_scope.

(** ** JavaScript values *)

Module Js.

(** A value as [JSON.parse] builds it. A finite number is a rational. *)
Inductive JsonValue : Type :=
| JNull
| JBool (b : bool)
| JNumber (q : Q)
| JStr (s : string)
| JArr (items : list JsonValue)
| JObj (fields : list (string * JsonValue)).

(** [ToBoolean]: what [if (v)], [!v] and [v || w] look at. *)
Definition truthy (v : JsonValue) : bool :=
  match v with
  | JNull => false
  | JBool b => b
  | JNumber q => negb (Qeq_bool q 0)
  | JStr s => negb (String.eqb s "")
  | JArr _ | JObj _ => true
  end.

Definition truthy_string (s : string) : bool := negb (String.eqb s "").

Definition isArray (v : JsonValue) : bool :=
  match v with JArr _ => true | _ => false end.

Definition isObject (v : JsonValue) : bool :=
  match v with JArr _ | JObj _ => true | _ => false end.

(** Own data property [key] of an object literal read from JSON. *)
Fixpoint field (key : string) (fields : list (string * JsonValue))
  : option JsonValue :=
  match fields with
  | [] => None
  | (k, v) :: rest => if String.eqb k key then Some v else field key rest
  end.

(** [v.key] for a value that is not [null]: only object literals carry
    the keys the routes read; arrays and primitives give [undefined]. *)
Definition get (key : string) (v : JsonValue) : option JsonValue :=
  match v with
  | JObj fields => field key fields
  | _ => None
  end.

(** The prototype slot of an object created by [{}]. *)
Inductive Proto : Type :=
| ObjectPrototype
| ProtoNull
| ProtoValue (v : JsonValue).

(** An object created by [{}] and filled by [obj[key] = value]. *)
Record JsObject : Type := mkObject {
  own : gmap string JsonValue;
  proto : Proto
}.

Definition empty_object : JsObject := mkObject ∅ ObjectPrototype.

Definition define_own (key : string) (v : JsonValue) (o : JsObject)
  : JsObject :=
  mkObject (<[key := v]> (own o)) (proto o).

(** The setter of the accessor [Object.prototype.__proto__]: an object
    or [null] becomes the prototype, anything else is ignored. *)
Definition proto_setter (v : JsonValue) (o : JsObject) : JsObject :=
  match v with
  | JNull => mkObject (own o) ProtoNull
  | JArr _ | JObj _ => mkObject (own o) (ProtoValue v)
  | _ => o
  end.

(** Does the lookup of [__proto__] along the prototype chain of [o] end
    at the accessor of [Object.prototype]? It does not when [o] has the
    key as an own property, when the chain was cut by [null], or when
    the prototype is a parsed object holding the key itself. *)
Definition reaches_proto_accessor (o : JsObject) : bool :=
  match own o !! "__proto__"%string with
  | Some _ => false
  | None =>
      match proto o with
      | ObjectPrototype => true
      | ProtoNull => false
      | ProtoValue p =>
          match get "__proto__" p with Some _ => false | None => true end
      end
  end.

(** [o[key] = v]. Every property found on the chain other than the
    [__proto__] accessor is a writable data property, so the assignment
    ends in an own property of [o]. *)
Definition set (key : string) (v : JsonValue) (o : JsObject) : JsObject :=
  if String.eqb key "__proto__" && reaches_proto_accessor o
  then proto_setter v o
  else define_own key v o.

(** [Object.keys(o).length] *)
Definition keys_length (o : JsObject) : nat := size (own o).

End Js.
Import Js.

(** ** Errors, the secret store and the world *)

(** A thrown JavaScript error, with the properties the program reads. *)
Record JsError : Type := mkError {
  error_name : string;
  error_message : string;
  error_statusCode : option Z;
  error_status : option Z
}.

(** [new Error(message)] *)
Definition new_Error (message : string) : JsError :=
  mkError "Error" message None None.

(** [SecretBinary] is a [Uint8Array] in the client's declarations; the
    call [Buffer.from(_, 'base64')] also takes a base64 string. *)
Inductive Binary : Type :=
| Bytes (b : list Byte.byte)
| Base64Text (s : string).

Definition truthy_binary (b : Binary) : bool :=
  match b with
  | Bytes _ => true
  | Base64Text s => truthy_string s
  end.

(** The reply to [GetSecretValueCommand]; [None] is [undefined]. *)
Record GetSecretValueResponse : Type := mkResponse {
  SecretString : option string;
  SecretBinary : option Binary
}.

(** How the promise of [client.send(command)] settles. *)
Inductive UpstreamOutcome : Type :=
| Responded (response : GetSecretValueResponse)
| Failed (error : JsError).

(** Value of the cache [Map]: [{ secret, timestamp }]. *)
Record CacheEntry : Type := mkEntry {
  secret : JsonValue;
  timestamp : Z
}.

(** The exported functions of the adapter that a caller can enter. *)
Inductive AdapterCall : Type :=
| Call_getSecret (secretName : string) (useCache : bool)
| Call_getMultipleSecrets (secretNames : list string) (useCache : bool).

(** Process-wide state. [ticks] counts the [Date.now()] readings taken,
    [sent] lists the [SecretId] of every command sent upstream, oldest
    first, and [entered] lists the adapter functions entered. *)
Record World : Type := mkWorld {
  secretCache : gmap string CacheEntry;
  ticks : nat;
  sent : list string;
  entered : list AdapterCall
}.

Definition initial_world : World := mkWorld ∅ 0 [] [].

Definition CACHE_TTL : Z := 5 * 60 * 1000.

(** ** State and exceptions *)

Definition M (A : Type) : Type := World → (A + JsError) * World.

Definition ret {A} (a : A) : M A := λ w, (inl a, w).

Definition throw {A} (e : JsError) : M A := λ w, (inr e, w).

Definition bind {A B} (m : M A) (k : A → M B) : M B :=
  λ w, match m w with
       | (inl a, w') => k a w'
       | (inr e, w') => (inr e, w')
       end.

Definition try_catch {A} (m : M A) (handler : JsError → M A) : M A :=
  λ w, match m w with
       | (inl a, w') => (inl a, w')
       | (inr e, w') => handler e w'
       end.

Notation "x <- m ;; k" := (bind m (λ x, k))
  (at level 100, m at next level, right associativity).
Notation "m ;; k" := (bind m (λ _, k))
  (at level 100, right associativity).

(** [secretCache.get(name)], [.set(name, entry)], [.delete(name)], [.clear()] *)
Definition secretCache_get (secretName : string) : M (option CacheEntry) :=
  λ w, (inl (secretCache w !! secretName), w).

Definition secretCache_set (secretName : string) (e : CacheEntry) : M unit :=
  λ w, (inl tt,
        mkWorld (<[secretName := e]> (secretCache w)) (ticks w) (sent w) (entered w)).

Definition secretCache_delete (secretName : string) : M unit :=
  λ w, (inl tt,
        mkWorld (delete secretName (secretCache w)) (ticks w) (sent w) (entered w)).

Definition secretCache_clear : M unit :=
  λ w, (inl tt, mkWorld ∅ (ticks w) (sent w) (entered w)).

(** [client.send(new GetSecretValueCommand({ SecretId }))]: the command
    leaves, and its position in [sent] identifies the pending promise. *)
Definition client_send (secretName : string) : M nat :=
  λ w, (inl (length (sent w)),
        mkWorld (secretCache w) (ticks w) (sent w ++ [secretName]) (entered w)).

Definition enter (c : AdapterCall) : M unit :=
  λ w, (inl tt, mkWorld (secretCache w) (ticks w) (sent w) (entered w ++ [c])).

(** ** A sample environment

    One secret, [db-creds], stored as the text of an empty JSON object;
    every other name is unknown to the store. The clock advances one
    minute per reading. *)

Definition sample_parse (text : string) : option JsonValue :=
  if String.eqb text "{}" then Some (JObj [])
  else if String.eqb text "null" then Some JNull
  else None.

Definition sample_buffer (b : Binary) : string :=
  match b with
  | Bytes _ => "{}"
  | Base64Text s => s
  end.

Definition sample_decodeURIComponent (s : string) : option string := Some s.

Definition sample_clock (n : nat) : Z := Z.of_nat n * 60000.

Definition not_found_error : JsError :=
  mkError "ResourceNotFoundException"
    "Secrets Manager can't find the specified secret." None None.

Definition sample_upstream (n : nat) (secretId : string) : UpstreamOutcome :=
  if String.eqb secretId "db-creds"
  then Responded (mkResponse (Some "{}") None)
  else Failed not_found_error.

(** The character U+0022. *)
Definition dquote : string := String (Ascii.ascii_of_nat 34) EmptyString.

(** ** Listing secrets *)

(** What [parseInt] returns: [NaN], an integer, or an infinity. *)
Inductive JsNumber : Type :=
| NaN
| Finite (z : Z)
| Infinite (negative : bool).

(** The reply to [ListSecretsCommand]; the records are passed through. *)
Record ListSecretsResponse : Type := mkListResponse {
  SecretList : option (list JsonValue)
}.

Inductive ListOutcome : Type :=
| Listed (response : ListSecretsResponse)
| ListFailed (error : JsError).

(** [{ secrets, count }] *)
Record ListBody : Type := mkListBody {
  list_secrets : list JsonValue;
  list_count : nat
}.

Definition access_denied_error : JsError :=
  mkError "AccessDeniedException"
    "User is not authorized to perform secretsmanager:ListSecrets" (Some 400)
    None.

Definition sample_list_upstream (maxResults : JsNumber) : ListOutcome :=
  match maxResults with
  | Finite 100 => Listed (mkListResponse None)
  | Finite 1 => Listed (mkListResponse (Some [JObj [("Name", JStr "db-creds")]]))
  | _ => ListFailed access_denied_error
  end.

(** ** Histories of adapter calls *)

(** What a caller, or the event loop, can make the adapter do next: a
    whole call, or one half of a fetch that is interleaved with others. *)
Inductive Operation : Type :=
| Op_getSecret (secretName : string) (useCache : bool)
| Op_getSecret_start (secretName : string) (useCache : bool)
| Op_getSecret_resume (ticket : nat)
| Op_getMultipleSecrets (secretNames : list string) (useCache : bool)
    (choice : list nat)
| Op_clearCache
| Op_clearSecretCache (secretName : string).

(** ** The program *)

Section Program.

(** [JSON.parse]; [None] when it throws [SyntaxError]. *)
Variable JSON_parse : string → option JsonValue.
(** [Buffer.from(b, 'base64').toString('utf-8')] *)
Variable Buffer_from_base64_toString_utf8 : Binary → string.
(** [decodeURIComponent]; [None] when it throws [URIError]. *)
Variable decodeURIComponent : string → option string.
(** [process.env.NODE_ENV === 'development'] *)
Variable NODE_ENV_development : bool.
(** The [n]-th reading of [Date.now()], in milliseconds. *)
Variable clock : nat → Z.
(** How the secret store settles the [n]-th command sent, for the
    [SecretId] it carries. *)
Variable upstream : nat → string → UpstreamOutcome.

(** [Date.now()] *)
Definition Date_now : M Z :=
  λ w, (inl (clock (ticks w)),
        mkWorld (secretCache w) (S (ticks w)) (sent w) (entered w)).

(** *** src/config/secrets.js *)

(** [try { v = JSON.parse(text) } catch (e) { v = text }] *)
Definition parse_or_raw (text : string) : JsonValue :=
  match JSON_parse text with
  | Some parsed => parsed
  | None => JStr text
  end.

(** Lines 53-63: the [else if (response.SecretBinary)] and [else] arms. *)
Definition decode_binary (response : GetSecretValueResponse) : M JsonValue :=
  match SecretBinary response with
  | Some b =>
      if truthy_binary b
      then ret (parse_or_raw (Buffer_from_base64_toString_utf8 b))
      else throw (new_Error "Secret value is empty")
  | None => throw (new_Error "Secret value is empty")
  end.

(** Lines 44-63: the value of a reply, or [throw new Error('Secret value
    is empty')]. [if (response.SecretString)] and
    [if (response.SecretBinary)] are truthiness tests. *)
Definition decode (response : GetSecretValueResponse) : M JsonValue :=
  match SecretString response with
  | Some text =>
      if truthy_string text then ret (parse_or_raw text)
      else decode_binary response
  | None => decode_binary response
  end.

(** Lines 72-82: the [catch] of [getSecret]. *)
Definition rethrow (secretName : string) (error : JsError) : JsError :=
  if String.eqb (error_name error) "ResourceNotFoundException" then
    new_Error ("Secret '" ++ secretName ++ "' not found")
  else if String.eqb (error_name error) "AccessDeniedException" then
    new_Error ("Access denied to secret '" ++ secretName
               ++ "'. Check IAM role permissions.")
  else if String.eqb (error_name error) "DecryptionFailureException" then
    new_Error ("Failed to decrypt secret '" ++ secretName ++ "'")
  else
    new_Error ("Failed to retrieve secret '" ++ secretName ++ "': "
               ++ error_message error).

(** Lines 29-34: the cached value when [useCache] holds and the entry is
    fresh. [Date.now()] is read only when an entry exists. *)
Definition cached_fresh (secretName : string) (useCache : bool)
  : M (option JsonValue) :=
  if useCache then
    cached <- secretCache_get secretName ;;
    match cached with
    | Some c =>
        now <- Date_now ;;
        if now - timestamp c <? CACHE_TTL then ret (Some (secret c))
        else ret None
    | None => ret None
    end
  else ret None.

(** What [getSecret] has done when it first gives up control: it
    returned the cached value, or it awaits the reply to a command. *)
Inductive Started : Type :=
| Served (value : JsonValue)
| Awaiting (ticket : nat).

(** [getSecret] up to [await client.send(command)]. *)
Definition getSecret_start (secretName : string) (useCache : bool)
  : M Started :=
  enter (Call_getSecret secretName useCache) ;;
  hit <- cached_fresh secretName useCache ;;
  match hit with
  | Some value => ret (Served value)
  | None => ticket <- client_send secretName ;; ret (Awaiting ticket)
  end.

(** [getSecret] from the moment the awaited promise settles. *)
Definition getSecret_resume (secretName : string) (outcome : UpstreamOutcome)
  : M JsonValue :=
  try_catch
    (response <- match outcome with
                 | Responded r => ret r
                 | Failed e => throw e
                 end ;;
     secretValue <- decode response ;;
     now <- Date_now ;;
     secretCache_set secretName (mkEntry secretValue now) ;;
     ret secretValue)
    (λ error, throw (rethrow secretName error)).

(** [getSecret(secretName, useCache)] when nothing else runs while it
    awaits the reply. *)
Definition getSecret (secretName : string) (useCache : bool) : M JsonValue :=
  started <- getSecret_start secretName useCache ;;
  match started with
  | Served value => ret value
  | Awaiting ticket => getSecret_resume secretName (upstream ticket secretName)
  end.

(** [clearCache()] and [clearSecretCache(secretName)] *)
Definition clearCache : M unit := secretCache_clear.

Definition clearSecretCache (secretName : string) : M unit :=
  secretCache_delete secretName.

(** [{ secrets: results, errors: ... }]; [None] is [undefined]. *)
Record BatchResult : Type := mkBatch {
  secrets : JsObject;
  errors : option JsObject
}.

(** The callbacks of [secretNames.map(async ...)] run in order, each up
    to its first [await]. *)
Fixpoint start_all (secretNames : list string) (useCache : bool)
  : M (list (string * Started)) :=
  match secretNames with
  | [] => ret []
  | secretName :: rest =>
      started <- getSecret_start secretName useCache ;;
      others <- start_all rest useCache ;;
      ret ((secretName, started) :: others)
  end.

Definition is_served (item : string * Started) : bool :=
  match snd item with Served _ => true | Awaiting _ => false end.

(** The order in which pending replies arrive is the secret store's:
    [choice] picks, one after the other, which of the commands still
    pending is answered next (no choice left: oldest first). *)
Fixpoint arrival_order {A} (choice : list nat) (pending : list A) : list A :=
  match choice with
  | [] => pending
  | c :: later =>
      match pending !! (c mod length pending)%nat with
      | Some x => x :: arrival_order later (delete (c mod length pending)%nat pending)
      | None => pending
      end
  end.

(** Line 137: what [await getSecret(secretName, useCache)] gives once
    the callback continues. *)
Definition settle_value (item : string * Started) : M JsonValue :=
  match snd item with
  | Served v => ret v
  | Awaiting ticket => getSecret_resume (fst item) (upstream ticket (fst item))
  end.

(** Lines 136-141: the rest of one callback, on the two objects
    [(results, errors)]. *)
Definition settle_one (item : string * Started) (acc : JsObject * JsObject)
  : M (JsObject * JsObject) :=
  try_catch
    (value <- settle_value item ;;
     ret (Js.set (fst item) value (fst acc), snd acc))
    (λ error,
       ret (fst acc, Js.set (fst item) (JStr (error_message error)) (snd acc))).

Fixpoint settle_all (items : list (string * Started))
  (acc : JsObject * JsObject) : M (JsObject * JsObject) :=
  match items with
  | [] => ret acc
  | item :: rest => acc' <- settle_one item acc ;; settle_all rest acc'
  end.

(** The callbacks served from the cache continue first, in order; the
    others continue as the replies arrive. *)
Definition settle_sequence (choice : list nat)
  (started : list (string * Started)) : list (string * Started) :=
  (List.filter is_served started
   ++ arrival_order choice
        (List.filter (λ item, negb (is_served item)) started))%list.

(** [getMultipleSecrets(secretNames, useCache)]. The callbacks served
    from the cache continue first, in order; the others continue as the
    replies arrive. [Promise.all] waits for every callback. *)
Definition getMultipleSecrets (secretNames : list string) (useCache : bool)
  (choice : list nat) : M BatchResult :=
  enter (Call_getMultipleSecrets secretNames useCache) ;;
  started <- start_all secretNames useCache ;;
  acc <- settle_all (settle_sequence choice started)
           (empty_object, empty_object) ;;
  ret (mkBatch (fst acc)
         (if (0 <? keys_length (snd acc))%nat then Some (snd acc) else None)).

(** *** src/middleware/errorHandler.js *)

Inductive ResponseBody : Type :=
| SecretBody (name : string) (value : JsonValue)
| BatchBody (result : BatchResult)
| ErrorEnvelope (message : string) (statusCode : Z) (stack : bool).

Record Response : Type := mkRes {
  res_status : Z;
  res_body : ResponseBody
}.

(** [a || b] on a property that is [undefined] or a number. *)
Definition number_or (a : option Z) (b : Z) : Z :=
  match a with
  | Some n => if n =? 0 then b else n
  | None => b
  end.

(** [errorHandler(err, req, res, next)]; the text of [err.stack] is the
    engine's, only its presence is kept. *)
Definition errorHandler (err : JsError) : Response :=
  let statusCode :=
    number_or (error_statusCode err) (number_or (error_status err) 500) in
  let message :=
    if truthy_string (error_message err) then error_message err
    else "Internal Server Error" in
  mkRes statusCode (ErrorEnvelope message statusCode NODE_ENV_development).

(** *** src/routes/secrets.js *)

(** A value of [req.query]: a string, an array or a nested object. *)
Inductive QueryValue : Type :=
| QueryText (s : string)
| QueryList (items : list QueryValue)
| QueryMap (fields : list (string * QueryValue)).

(** [v !== 'false'] *)
Definition not_false (v : option QueryValue) : bool :=
  match v with
  | Some (QueryText s) => negb (String.eqb s "false")
  | _ => true
  end.

(** A handler body in [try { ... } catch (error) { next(error) }], with
    [errorHandler] as the last middleware. *)
Definition handle (body : M Response) : World → Response * World :=
  λ w, match body w with
       | (inl res, w') => (res, w')
       | (inr err, w') => (errorHandler err, w')
       end.

(** [router.get('/:name', ...)] *)
Definition get_name (params_name : string) (query_useCache : option QueryValue)
  : World → Response * World :=
  handle
    (secretName <- match decodeURIComponent params_name with
                   | Some decoded => ret decoded
                   | None => throw (mkError "URIError" "URI malformed" None None)
                   end ;;
     value <- getSecret secretName (not_false query_useCache) ;;
     ret (mkRes 200 (SecretBody secretName value))).

Definition array_length (v : JsonValue) : nat :=
  match v with JArr items => length items | _ => 0%nat end.

(** [!names || !Array.isArray(names) || names.length === 0] *)
Definition names_rejected (names : option JsonValue) : bool :=
  match names with
  | None => true
  | Some v =>
      negb (truthy v) || negb (isArray v) || (array_length v =? 0)%nat
  end.

(** The names of an accepted array when all of them are strings. *)
Fixpoint names_of (items : list JsonValue) : option (list string) :=
  match items with
  | [] => Some []
  | JStr s :: rest => cons s <$> names_of rest
  | _ => None
  end.

(** [router.post('/batch', ...)] on a [req.body] that is a JSON value.
    Destructuring [null] throws. An accepted array that holds something
    else than strings is outside the model: [None]. *)
Definition post_batch (body : JsonValue) (choice : list nat)
  : World → option (Response * World) :=
  λ w,
    match body with
    | JNull =>
        Some (handle (throw (mkError "TypeError"
                "Cannot destructure property 'names' of 'req.body' as it is null."
                None None)) w)
    | _ =>
        let names := Js.get "names" body in
        let useCache := default (JBool true) (Js.get "useCache" body) in
        if names_rejected names then
          Some (mkRes 400
                  (ErrorEnvelope
                     ("Request body must include a " ++ dquote ++ "names" ++ dquote
                      ++ " array with at least one secret name")
                     400 false), w)
        else
          match names with
          | Some (JArr items) =>
              secretNames ← names_of items;
              Some (handle
                      (result <- getMultipleSecrets secretNames (truthy useCache) choice ;;
                       ret (mkRes 200 (BatchBody result))) w)
          | _ => None
          end
    end.


(** The world after [secretCache.set(name, { secret, timestamp: Date.now() })]. *)
Definition stored (secretName : string) (v : JsonValue) (w : World) : World :=
  mkWorld (<[secretName := mkEntry v (clock (ticks w))]> (secretCache w))
    (S (ticks w)) (sent w) (entered w).

(** *** How each name of a batch settles *)

(** The outcome of every callback, in the order they continue. *)
Fixpoint outcomes (items : list (string * Started)) (w : World)
  : list (string * (JsonValue + JsError)) :=
  match items with
  | [] => []
  | item :: rest =>
      (fst item, fst (settle_value item w))
      :: outcomes rest (snd (settle_value item w))
  end.

(** What one outcome does to [(results, errors)]. *)
Definition collect (acc : JsObject * JsObject)
  (o : string * (JsonValue + JsError)) : JsObject * JsObject :=
  match snd o with
  | inl value => (Js.set (fst o) value (fst acc), snd acc)
  | inr error => (fst acc, Js.set (fst o) (JStr (error_message error)) (snd acc))
  end.

(** The outcomes of [getMultipleSecrets secretNames useCache choice]. *)
Definition batch_outcomes (secretNames : list string) (useCache : bool)
  (choice : list nat) (w : World) : list (string * (JsonValue + JsError)) :=
  match start_all secretNames useCache
          (snd (enter (Call_getMultipleSecrets secretNames useCache) w)) with
  | (inl started, w1) => outcomes (settle_sequence choice started) w1
  | (inr _, _) => []
  end.

(** The assignments [results[name] = value] and
    [errors[name] = error.message] that a list of outcomes leads to. *)
Definition assignments_ok (os : list (string * (JsonValue + JsError)))
  : list (string * JsonValue) :=
  omap (λ o, match snd o with
             | inl value => Some (fst o, value)
             | inr _ => None
             end) os.

Definition assignments_err (os : list (string * (JsonValue + JsError)))
  : list (string * JsonValue) :=
  omap (λ o, match snd o with
             | inl _ => None
             | inr error => Some (fst o, JStr (error_message error))
             end) os.

Definition assign_all (kvs : list (string * JsonValue)) (o : JsObject)
  : JsObject :=
  fold_left (λ obj kv, Js.set (fst kv) (snd kv) obj) kvs o.

(** *** The error taxonomy of the specification *)

Inductive ErrorKind : Type :=
| NotFound
| AccessDenied
| DecryptionFailure
| OtherFailure.

(** The kind that the specification assigns to an upstream error
    identifier. *)
Definition upstream_kind (identifier : string) : ErrorKind :=
  if String.eqb identifier "ResourceNotFoundException" then NotFound
  else if String.eqb identifier "AccessDeniedException" then AccessDenied
  else if String.eqb identifier "DecryptionFailureException" then DecryptionFailure
  else OtherFailure.

(** How a caller can read the kind off the message of a raised error. *)
Definition kind_of_message (message : string) : option ErrorKind :=
  if String.prefix "Secret '" message then Some NotFound
  else if String.prefix "Access denied to secret '" message then Some AccessDenied
  else if String.prefix "Failed to decrypt secret '" message then Some DecryptionFailure
  else if String.prefix "Failed to retrieve secret '" message then Some OtherFailure
  else None.

(** *** The rest of src/config/secrets.js and src/routes/secrets.js *)

(** How the secret store settles [ListSecretsCommand({ MaxResults })]. *)
Variable list_upstream : JsNumber → ListOutcome.
(** [parseInt] on a value of [req.query]; [None] is [undefined]. *)
Variable parseInt : option QueryValue → JsNumber.

(** [listSecrets(maxResults)] *)
Definition listSecrets (maxResults : JsNumber) : list JsonValue + JsError :=
  match list_upstream maxResults with
  | Listed response => inl (default [] (SecretList response))
  | ListFailed error =>
      if String.eqb (error_name error) "AccessDeniedException" then
        inr (new_Error
               "Access denied to list secrets. Check IAM role permissions.")
      else
        inr (new_Error ("Failed to list secrets: " ++ error_message error))
  end.

(** [n || 100] *)
Definition or_100 (n : JsNumber) : JsNumber :=
  match n with
  | NaN => Finite 100
  | Finite z => if z =? 0 then Finite 100 else n
  | Infinite _ => n
  end.

(** [router.get('/', ...)] *)
Definition get_list (query_maxResults : option QueryValue)
  : ListBody + Response :=
  match listSecrets (or_100 (parseInt query_maxResults)) with
  | inl secrets => inl (mkListBody secrets (length secrets))
  | inr err => inr (errorHandler err)
  end.

(** One step of a history. The reply to a command can only reach the
    fetch that sent it: [ticket] must be the position of a sent command,
    and the fetch that resumes is the one for that [SecretId]. *)
Definition run_operation (op : Operation) (w : World) : World :=
  match op with
  | Op_getSecret secretName useCache => snd (getSecret secretName useCache w)
  | Op_getSecret_start secretName useCache =>
      snd (getSecret_start secretName useCache w)
  | Op_getSecret_resume ticket =>
      match sent w !! ticket with
      | Some secretName =>
          snd (getSecret_resume secretName (upstream ticket secretName) w)
      | None => w
      end
  | Op_getMultipleSecrets secretNames useCache choice =>
      snd (getMultipleSecrets secretNames useCache choice w)
  | Op_clearCache => snd (clearCache w)
  | Op_clearSecretCache secretName => snd (clearSecretCache secretName w)
  end.

Definition run_operations (ops : list Operation) (w : World) : World :=
  fold_left (λ w' op, run_operation op w') ops w.

(** The state a callback leaves behind, and the state after all of them. *)
Definition settle_world (w : World) (item : string * Started) : World :=
  snd (settle_value item w).

(** Every entry of the cache belongs to a name that was sent upstream
    and carries a clock reading that was taken. *)
Definition cache_sound (w : World) : Prop :=
  ∀ n c, secretCache w !! n = Some c →
         n ∈ sent w ∧ ∃ k, (k < ticks w)%nat ∧ timestamp c = clock k.

(** The operations that fetch, as opposed to those that invalidate. *)
Definition is_fetch (op : Operation) : bool :=
  match op with
  | Op_clearCache | Op_clearSecretCache _ => false
  | _ => true
  end.

(** ** Properties of the adapter *)

Ltac run :=
  unfold getSecret, getSecret_start, getSecret_resume, cached_fresh,
    secretCache_get, secretCache_set, client_send, enter, Date_now,
    bind, ret, throw, try_catch in *; simpl in *.

Lemma cached_fresh_hit secretName c w :
  secretCache w !! secretName = Some c →
  clock (ticks w) - timestamp c < CACHE_TTL →
  cached_fresh secretName true w
  = (inl (Some (secret c)),
     mkWorld (secretCache w) (S (ticks w)) (sent w) (entered w)).
Proof.
  intros Hc Hlt. run. rewrite Hc.
  apply Z.ltb_lt in Hlt. by rewrite Hlt.
Qed.

Lemma cached_fresh_stale secretName c w :
  secretCache w !! secretName = Some c →
  CACHE_TTL ≤ clock (ticks w) - timestamp c →
  cached_fresh secretName true w
  = (inl None, mkWorld (secretCache w) (S (ticks w)) (sent w) (entered w)).
Proof.
  intros Hc Hge. run. rewrite Hc.
  apply Z.ltb_ge in Hge. by rewrite Hge.
Qed.

Lemma cached_fresh_keeps secretName useCache w :
  ∃ hit w', cached_fresh secretName useCache w = (inl hit, w')
            ∧ secretCache w' = secretCache w
            ∧ sent w' = sent w
            ∧ entered w' = entered w
            ∧ (useCache = false → hit = None ∧ w' = w).
Proof.
  destruct useCache; run.
  - destruct (secretCache w !! secretName) as [c|]; simpl.
    + destruct (clock (ticks w) - timestamp c <? CACHE_TTL);
        eexists _, _; repeat split; done.
    + eexists _, _; repeat split; done.
  - eexists _, _; repeat split; done.
Qed.

(** Decoding reads nothing but the reply. *)
Lemma decode_cases response :
  (∃ v, ∀ w, decode response w = (inl v, w))
  ∨ (∀ w, decode response w = (inr (new_Error "Secret value is empty"), w)).
Proof.
  unfold decode, decode_binary.
  destruct (SecretString response) as [text|];
    [destruct (truthy_string text); [left; eexists; intros; reflexivity|]|];
    (destruct (SecretBinary response) as [b|];
     [destruct (truthy_binary b)|]);
    first [left; eexists; intros; reflexivity | right; intros; reflexivity].
Qed.

Lemma getSecret_resume_Responded secretName response w :
  getSecret_resume secretName (Responded response) w
  = match decode response w with
    | (inl v, _) => (inl v, stored secretName v w)
    | (inr e, _) => (inr (rethrow secretName e), w)
    end.
Proof.
  destruct (decode_cases response) as [[v Hv]|He]; run.
  - by rewrite Hv.
  - by rewrite He.
Qed.

Lemma getSecret_resume_Failed secretName e w :
  getSecret_resume secretName (Failed e) w = (inr (rethrow secretName e), w).
Proof. reflexivity. Qed.

Lemma getSecret_resume_cases secretName outcome w :
  (∃ v, getSecret_resume secretName outcome w = (inl v, stored secretName v w))
  ∨ (∃ e, getSecret_resume secretName outcome w = (inr e, w)).
Proof.
  destruct outcome as [response|e].
  - rewrite getSecret_resume_Responded.
    destruct (decode_cases response) as [[v Hv]|He].
    + left. exists v. by rewrite Hv.
    + right. eexists. by rewrite He.
  - right. eexists. apply getSecret_resume_Failed.
Qed.

(** The two ways [getSecret] reaches its first suspension point. *)
Lemma getSecret_start_cases secretName useCache w :
  (∃ c, useCache = true
        ∧ secretCache w !! secretName = Some c
        ∧ clock (ticks w) - timestamp c < CACHE_TTL
        ∧ getSecret_start secretName useCache w
          = (inl (Served (secret c)),
             mkWorld (secretCache w) (S (ticks w)) (sent w)
               (entered w ++ [Call_getSecret secretName useCache])))
  ∨ (∃ n, (n = ticks w ∨ n = S (ticks w))
        ∧ (useCache = false → n = ticks w)
        ∧ (useCache = true →
           match secretCache w !! secretName with
           | Some c => n = S (ticks w)
                       ∧ CACHE_TTL ≤ clock (ticks w) - timestamp c
           | None => n = ticks w
           end)
        ∧ getSecret_start secretName useCache w
          = (inl (Awaiting (length (sent w))),
             mkWorld (secretCache w) n (sent w ++ [secretName])
               (entered w ++ [Call_getSecret secretName useCache]))).
Proof.
  destruct useCache; run.
  - destruct (secretCache w !! secretName) as [c|] eqn:Hc; simpl.
    + destruct (clock (ticks w) - timestamp c <? CACHE_TTL) eqn:Hlt.
      * left. exists c. apply Z.ltb_lt in Hlt. done.
      * right. exists (S (ticks w)). apply Z.ltb_ge in Hlt.
        repeat split; auto; done.
    + right. exists (ticks w). repeat split; auto; done.
  - right. exists (ticks w). repeat split; auto; done.
Qed.

Lemma getSecret_unfold secretName useCache w :
  getSecret secretName useCache w
  = match getSecret_start secretName useCache w with
    | (inl (Served v), w1) => (inl v, w1)
    | (inl (Awaiting ticket), w1) =>
        getSecret_resume secretName (upstream ticket secretName) w1
    | (inr e, w1) => (inr e, w1)
    end.
Proof.
  unfold getSecret, bind at 1.
  destruct (getSecret_start secretName useCache w) as [[[v|ticket]|e] w1];
    reflexivity.
Qed.

(** C2 (cache freshness). Let a fetch of [secretName] succeed with value
    [v] after an upstream call, its entry being stored at time [T], the
    last clock reading of that fetch. In every later state whose entry
    for the name is still that one, [getSecret secretName true] at time
    [T'] returns [v] and sends nothing upstream when [T' - T < CACHE_TTL],
    and sends a new command upstream when [CACHE_TTL <= T' - T]; the TTL
    is five minutes. *)
Theorem cache_freshness secretName useCache v w0 w1 :
  getSecret secretName useCache w0 = (inl v, w1) →
  sent w1 ≠ sent w0 →
  CACHE_TTL = 300000
  ∧ secretCache w1 !! secretName
    = Some (mkEntry v (clock (Nat.pred (ticks w1))))
  ∧ ∀ w,
      secretCache w !! secretName
      = Some (mkEntry v (clock (Nat.pred (ticks w1)))) →
      (clock (ticks w) - clock (Nat.pred (ticks w1)) < CACHE_TTL →
       fst (getSecret secretName true w) = inl v
       ∧ sent (snd (getSecret secretName true w)) = sent w)
      ∧ (CACHE_TTL ≤ clock (ticks w) - clock (Nat.pred (ticks w1)) →
         sent (snd (getSecret secretName true w))
           = (sent w ++ [secretName])%list).
Proof.
  intros Hfetch Hsent. split; [reflexivity|].
  assert (Hstored : secretCache w1 !! secretName
                    = Some (mkEntry v (clock (Nat.pred (ticks w1))))).
  { rewrite getSecret_unfold in Hfetch.
    destruct (getSecret_start_cases secretName useCache w0)
      as [(c & _ & _ & _ & Hs)|(n & _ & _ & _ & Hs)]; rewrite Hs in Hfetch.
    - inversion Hfetch; subst; simpl in Hsent; done.
    - match type of Hfetch with
      | getSecret_resume _ ?o ?wa = _ =>
          destruct (getSecret_resume_cases secretName o wa)
            as [[v' Hr]|[e Hr]]; rewrite Hr in Hfetch
      end; inversion Hfetch; subst; simpl.
      apply lookup_insert_eq. }
  split; [exact Hstored|].
  intros w Hw. split; intros HT.
  - rewrite getSecret_unfold.
    destruct (getSecret_start_cases secretName true w)
      as [(c & _ & Hc & _ & Hs)|(n & _ & _ & Hstale & Hs)].
    + rewrite Hs. rewrite Hw in Hc. inversion Hc; subst. done.
    + specialize (Hstale eq_refl). rewrite Hw in Hstale. simpl in Hstale. lia.
  - rewrite getSecret_unfold.
    destruct (getSecret_start_cases secretName true w)
      as [(c & _ & Hc & Hfresh & Hs)|(n & _ & _ & _ & Hs)].
    + rewrite Hw in Hc. inversion Hc; subst. simpl in Hfresh. lia.
    + rewrite Hs.
      match goal with
      | |- context [getSecret_resume _ ?o ?wa] =>
          destruct (getSecret_resume_cases secretName o wa)
            as [[v' Hr]|[e Hr]]; rewrite Hr
      end; reflexivity.
Qed.


(** C4 (no pollution on failure). A fetch that fails, whether the store
    failed or the reply was empty, leaves the whole cache as it was; this
    also holds for the part of a fetch that runs after the reply, in any
    state it may resume in. *)
Theorem failed_fetch_keeps_cache secretName useCache w e w' :
  getSecret secretName useCache w = (inr e, w') →
  secretCache w' = secretCache w
  ∧ ∀ outcome wr er wr',
      getSecret_resume secretName outcome wr = (inr er, wr') →
      secretCache wr' = secretCache wr.
Proof.
  intros Hfail. split.
  - rewrite getSecret_unfold in Hfail.
    destruct (getSecret_start_cases secretName useCache w)
      as [(c & _ & _ & _ & Hs)|(n & _ & _ & _ & Hs)]; rewrite Hs in Hfail.
    + inversion Hfail.
    + match type of Hfail with
      | getSecret_resume _ ?o ?wa = _ =>
          destruct (getSecret_resume_cases secretName o wa)
            as [[v' Hr]|[e' Hr]]; rewrite Hr in Hfail
      end; inversion Hfail; subst; reflexivity.
  - intros outcome wr er wr' Hr.
    destruct (getSecret_resume_cases secretName outcome wr)
      as [[v' Hr']|[e' Hr']]; rewrite Hr' in Hr; inversion Hr; subst; done.
Qed.

(** C9 (invalidate). [clearSecretCache] and [clearCache] return normally
    in every state; clearing a name without entry leaves the state as it
    was; doing either twice is doing it once. *)
Theorem invalidate_idempotent secretName w :
  fst (clearSecretCache secretName w) = inl tt
  ∧ fst (clearCache w) = inl tt
  ∧ (secretCache w !! secretName = None →
     snd (clearSecretCache secretName w) = w)
  ∧ snd (clearSecretCache secretName (snd (clearSecretCache secretName w)))
    = snd (clearSecretCache secretName w)
  ∧ snd (clearCache (snd (clearCache w))) = snd (clearCache w).
Proof.
  destruct w as [cache n s en].
  unfold clearSecretCache, clearCache, secretCache_delete, secretCache_clear.
  simpl. repeat split.
  - intros Hnone. by rewrite delete_id.
  - by rewrite delete_delete_eq.
Qed.

Lemma prefix_app (p s : string) : String.prefix p (p ++ s) = true.
Proof.
  induction p as [|a p IH]; simpl.
  - by destruct s.
  - destruct (Ascii.ascii_dec a a); [exact IH|done].
Qed.

Lemma rethrow_cases secretName e :
  (upstream_kind (error_name e) = NotFound
   ∧ rethrow secretName e = new_Error ("Secret '" ++ secretName ++ "' not found"))
  ∨ (upstream_kind (error_name e) = AccessDenied
     ∧ rethrow secretName e
       = new_Error ("Access denied to secret '" ++ secretName
                    ++ "'. Check IAM role permissions."))
  ∨ (upstream_kind (error_name e) = DecryptionFailure
     ∧ rethrow secretName e
       = new_Error ("Failed to decrypt secret '" ++ secretName ++ "'"))
  ∨ (upstream_kind (error_name e) = OtherFailure
     ∧ rethrow secretName e
       = new_Error ("Failed to retrieve secret '" ++ secretName ++ "': "
                    ++ error_message e)).
Proof.
  unfold rethrow, upstream_kind.
  destruct (String.eqb (error_name e) "ResourceNotFoundException"); [by left|].
  destruct (String.eqb (error_name e) "AccessDeniedException");
    [by right; left|].
  destruct (String.eqb (error_name e) "DecryptionFailureException");
    [by right; right; left|by right; right; right].
Qed.

(** C6 (error taxonomy). When the store fails a command, the fetch that
    awaits it fails with the error built by the [catch] and the state is
    left as it was; the kind of the upstream identifier can be read off
    the message of that error, so the four kinds stay apart; and the
    message contains the secret name. *)
Theorem error_taxonomy secretName e :
  (∀ w, getSecret_resume secretName (Failed e) w
        = (inr (rethrow secretName e), w))
  ∧ (∀ useCache w ticket w1,
       getSecret_start secretName useCache w = (inl (Awaiting ticket), w1) →
       upstream ticket secretName = Failed e →
       getSecret secretName useCache w = (inr (rethrow secretName e), w1))
  ∧ kind_of_message (error_message (rethrow secretName e))
    = Some (upstream_kind (error_name e))
  ∧ ∃ before after,
      error_message (rethrow secretName e) = before ++ secretName ++ after.
Proof.
  split; [intros; apply getSecret_resume_Failed|].
  split.
  { intros useCache w ticket w1 Hs Hup.
    rewrite getSecret_unfold, Hs, Hup. apply getSecret_resume_Failed. }
  destruct (rethrow_cases secretName e)
    as [[-> ->]|[[-> ->]|[[-> ->]|[-> ->]]]]; simpl error_message.
  - split; [|by eexists "Secret '", _].
    unfold kind_of_message. by rewrite prefix_app.
  - split; [|by eexists "Access denied to secret '", _].
    unfold kind_of_message.
    rewrite (prefix_app "Access denied to secret '"). reflexivity.
  - split; [|by eexists "Failed to decrypt secret '", _].
    unfold kind_of_message.
    rewrite (prefix_app "Failed to decrypt secret '"). reflexivity.
  - split; [|by eexists "Failed to retrieve secret '", _].
    unfold kind_of_message.
    rewrite (prefix_app "Failed to retrieve secret '"). reflexivity.
Qed.

(** C3, amended (decoding order). A textual payload that is not the empty
    string is parsed as JSON and the fetch returns the parsed value, or
    the text itself when parsing fails. Without such a text, a binary
    payload that is truthy (a byte array, or a base64 string that is not
    empty) is decoded to text and treated the same way. Otherwise (each
    payload absent or empty) the fetch fails with the generic error that
    wraps [Secret value is empty], and the state is left as it was. *)
Theorem decode_order secretName response w :
  (∀ text, (∀ v, JSON_parse text = Some v → parse_or_raw text = v)
           ∧ (JSON_parse text = None → parse_or_raw text = JStr text))
  ∧ (∀ text,
       SecretString response = Some text → text ≠ "" →
       getSecret_resume secretName (Responded response) w
       = (inl (parse_or_raw text), stored secretName (parse_or_raw text) w))
  ∧ (∀ b,
       SecretString response = None ∨ SecretString response = Some "" →
       SecretBinary response = Some b → truthy_binary b = true →
       getSecret_resume secretName (Responded response) w
       = (inl (parse_or_raw (Buffer_from_base64_toString_utf8 b)),
          stored secretName
            (parse_or_raw (Buffer_from_base64_toString_utf8 b)) w))
  ∧ (SecretString response = None ∨ SecretString response = Some "" →
     SecretBinary response = None
     ∨ SecretBinary response = Some (Base64Text "") →
     getSecret_resume secretName (Responded response) w
     = (inr (new_Error ("Failed to retrieve secret '" ++ secretName
                        ++ "': Secret value is empty")), w)).
Proof.
  split.
  { intros text. unfold parse_or_raw. split.
    - intros v ->. reflexivity.
    - intros ->. reflexivity. }
  rewrite getSecret_resume_Responded. unfold decode, decode_binary.
  split; [|split].
  - intros text -> Hne. unfold truthy_string.
    apply String.eqb_neq in Hne. rewrite Hne. reflexivity.
  - intros b [-> | ->] -> Hb; simpl; rewrite Hb; reflexivity.
  - intros [-> | ->] [-> | ->]; reflexivity.
Qed.

(** ** Properties of the HTTP boundary *)

(** C1 (status of a missing secret). When [GET /secrets/:name] reaches
    the store and the store answers [ResourceNotFoundException], the
    adapter raises a plain [Error] without status, and [errorHandler]
    answers with status 500, not 404. *)
Theorem not_found_status params_name secretName query_useCache w ticket w1 e :
  decodeURIComponent params_name = Some secretName →
  getSecret_start secretName (not_false query_useCache) w
  = (inl (Awaiting ticket), w1) →
  upstream ticket secretName = Failed e →
  error_name e = "ResourceNotFoundException" →
  get_name params_name query_useCache w
  = (mkRes 500
       (ErrorEnvelope ("Secret '" ++ secretName ++ "' not found") 500
          NODE_ENV_development), w1).
Proof.
  intros Hdec Hs Hup Hname.
  unfold get_name, handle. rewrite Hdec.
  unfold bind at 1. unfold ret at 1. unfold bind at 1.
  rewrite getSecret_unfold, Hs, Hup, getSecret_resume_Failed.
  unfold rethrow. rewrite Hname. reflexivity.
Qed.

(** C10 (the [useCache] query parameter). When the name decodes, the
    route enters the adapter exactly once, through [getSecret] with the
    decoded name, and the flag it passes is [false] exactly when the
    query parameter is the string [false]. *)
Theorem useCache_query params_name secretName query_useCache w :
  decodeURIComponent params_name = Some secretName →
  ∃ useCache,
    entered (snd (get_name params_name query_useCache w))
    = (entered w ++ [Call_getSecret secretName useCache])%list
    ∧ (useCache = false ↔ query_useCache = Some (QueryText "false")).
Proof.
  intros Hdec. exists (not_false query_useCache). split.
  - unfold get_name, handle. rewrite Hdec.
    unfold bind at 1. unfold ret at 1. unfold bind at 1.
    rewrite getSecret_unfold.
    destruct (getSecret_start_cases secretName (not_false query_useCache) w)
      as [(c & _ & _ & _ & Hs)|(n & _ & _ & _ & Hs)]; rewrite Hs.
    + reflexivity.
    + match goal with
      | |- context [getSecret_resume _ ?o ?wa] =>
          destruct (getSecret_resume_cases secretName o wa)
            as [[v' Hr]|[e Hr]]; rewrite Hr
      end; reflexivity.
  - unfold not_false. split.
    + destruct query_useCache as [[s| |]|]; try discriminate.
      intros Hs. apply negb_false_iff, String.eqb_eq in Hs. by subst.
    + intros ->. reflexivity.
Qed.


(** X20 (a body without a usable [names]). On a body that is a JSON
    value other than [null], and that has no [names], or whose [names] is
    not an array, or is the empty array, [POST /secrets/batch] answers
    400 with the error envelope and leaves the state as it was: no
    adapter function is entered and nothing is sent upstream. *)
Theorem batch_rejects body choice w :
  body ≠ JNull →
  Js.get "names" body = None
  ∨ (∃ v, Js.get "names" body = Some v ∧ isArray v = false)
  ∨ Js.get "names" body = Some (JArr []) →
  post_batch body choice w
  = Some (mkRes 400
            (ErrorEnvelope
               ("Request body must include a " ++ dquote ++ "names" ++ dquote
                ++ " array with at least one secret name") 400 false), w).
Proof.
  intros Hbody Hnames.
  assert (Hrej : names_rejected (Js.get "names" body) = true).
  { destruct Hnames as [-> | [(v & -> & Hv) | ->]]; simpl.
    - reflexivity.
    - rewrite Hv. simpl. by rewrite orb_true_r.
    - reflexivity. }
  unfold post_batch. rewrite Hrej.
  destruct body; try reflexivity. done.
Qed.

(** ** Properties of the batch fetch *)

Lemma start_all_total secretNames useCache w :
  ∃ started w1,
    start_all secretNames useCache w = (inl started, w1)
    ∧ started.*1 = secretNames.
Proof.
  revert w. induction secretNames as [|n rest IH]; intros w; simpl.
  - by eexists _, _.
  - unfold bind at 1.
    destruct (getSecret_start_cases n useCache w)
      as [(c & _ & _ & _ & Hs)|(k & _ & _ & _ & Hs)]; rewrite Hs;
      unfold bind at 1;
      match goal with
      | |- context [start_all rest useCache ?wa] =>
          destruct (IH wa) as (started & w1 & -> & Hnames)
      end; eexists _, _; (split; [reflexivity|]); simpl; by f_equal.
Qed.

Lemma settle_all_collect items acc w :
  ∃ w', settle_all items acc w
        = (inl (fold_left collect (outcomes items w) acc), w').
Proof.
  revert acc w. induction items as [|item rest IH]; intros acc w; simpl.
  - by eexists.
  - unfold bind at 1, settle_one, try_catch, bind at 1.
    destruct (settle_value item w) as [[v|e] w1]; simpl; apply IH.
Qed.

Lemma fold_collect_split os acc :
  fold_left collect os acc
  = (assign_all (assignments_ok os) (fst acc),
     assign_all (assignments_err os) (snd acc)).
Proof.
  revert acc. induction os as [|[n [v|e]] rest IH]; intros [r er]; simpl.
  - reflexivity.
  - rewrite IH. reflexivity.
  - rewrite IH. reflexivity.
Qed.

Lemma set_ordinary_key key v o :
  key ≠ "__proto__" → Js.set key v o = define_own key v o.
Proof.
  intros Hne. unfold Js.set.
  apply String.eqb_neq in Hne. by rewrite Hne.
Qed.

(** Without the key [__proto__], the last assignment to a key decides. *)
Lemma assign_all_lookup kvs o n :
  Forall (λ kv, fst kv ≠ "__proto__") kvs →
  own (assign_all kvs o) !! n = own o !! n
  ∨ ∃ v, (n, v) ∈ kvs ∧ own (assign_all kvs o) !! n = Some v.
Proof.
  revert o. induction kvs as [|[k v] rest IH]; intros o Hall; simpl.
  - by left.
  - apply Forall_cons in Hall as [Hk Hrest]. simpl in Hk.
    rewrite (set_ordinary_key _ _ _ Hk).
    destruct (IH (define_own k v o) Hrest) as [Heq|(v' & Hin & Hv')].
    + rewrite Heq. simpl. destruct (decide (k = n)) as [->|Hkn].
      * right. exists v. rewrite lookup_insert_eq. split; [left|done].
      * left. by rewrite lookup_insert_ne.
    + right. exists v'. split; [by right|done].
Qed.

Lemma assign_all_assigned kvs o n v :
  Forall (λ kv, fst kv ≠ "__proto__") kvs →
  (n, v) ∈ kvs →
  ∃ v', (n, v') ∈ kvs ∧ own (assign_all kvs o) !! n = Some v'.
Proof.
  revert o. induction kvs as [|[k x] rest IH]; intros o Hall Hin.
  - by apply elem_of_nil in Hin.
  - apply Forall_cons in Hall as [Hk Hrest]. simpl in Hk.
    apply elem_of_cons in Hin as [[= <- <-]|Hin]; simpl.
    + rewrite (set_ordinary_key _ _ _ Hk).
      destruct (assign_all_lookup rest (define_own n v o) n Hrest)
        as [Heq|(v' & Hin' & Hv')].
      * exists v. split; [left|].
        rewrite Heq. simpl. apply lookup_insert_eq.
      * exists v'. split; [by right|done].
    + destruct (IH (Js.set k x o) Hrest Hin) as (v' & Hin' & Hv').
      exists v'. split; [by right|done].
Qed.

Lemma elem_of_assignments_ok os n v :
  (n, v) ∈ assignments_ok os ↔ (n, inl v) ∈ os.
Proof.
  unfold assignments_ok. rewrite list_elem_of_omap. split.
  - intros ([k [x|e]] & Hin & Heq); simpl in Heq; [|done].
    by injection Heq as -> ->.
  - intros Hin. by exists (n, inl v).
Qed.

Lemma elem_of_assignments_err os n m :
  (n, m) ∈ assignments_err os
  ↔ ∃ e, (n, inr e) ∈ os ∧ m = JStr (error_message e).
Proof.
  unfold assignments_err. rewrite list_elem_of_omap. split.
  - intros ([k [x|e]] & Hin & Heq); simpl in Heq; [done|].
    injection Heq as -> <-. by exists e.
  - intros (e & Hin & ->). by exists (n, inr e).
Qed.

Lemma assignments_keys os :
  Forall (λ o, fst o ≠ "__proto__") os →
  Forall (λ kv, fst kv ≠ "__proto__") (assignments_ok os)
  ∧ Forall (λ kv, fst kv ≠ "__proto__") (assignments_err os).
Proof.
  intros Hall. split; apply Forall_forall; intros [k v] Hin; simpl.
  - apply elem_of_assignments_ok in Hin.
    by apply (proj1 (Forall_forall _ _) Hall (k, inl v)).
  - apply elem_of_assignments_err in Hin as (e & Hin & _).
    by apply (proj1 (Forall_forall _ _) Hall (k, inr e)).
Qed.

Lemma outcomes_names items w : (outcomes items w).*1 = items.*1.
Proof.
  revert w. induction items as [|item rest IH]; intros w; simpl.
  - reflexivity.
  - by rewrite IH.
Qed.

Lemma arrival_order_perm {A} (choice : list nat) (pending : list A) :
  arrival_order choice pending ≡ₚ pending.
Proof.
  revert pending. induction choice as [|c later IH]; intros pending; simpl.
  - reflexivity.
  - destruct (pending !! (c mod length pending)%nat) as [x|] eqn:Hx.
    + rewrite IH. symmetry. by apply delete_Permutation.
    + reflexivity.
Qed.

Lemma filter_split_perm {A} (f : A → bool) (l : list A) :
  (List.filter f l ++ List.filter (λ x, negb (f x)) l)%list ≡ₚ l.
Proof.
  induction l as [|a l IH]; simpl.
  - reflexivity.
  - destruct (f a); simpl.
    + by rewrite IH.
    + rewrite <- Permutation_middle. by rewrite IH.
Qed.

(** Every started callback continues, once. *)
Lemma settle_sequence_perm choice started :
  settle_sequence choice started ≡ₚ started.
Proof.
  unfold settle_sequence. rewrite arrival_order_perm.
  apply filter_split_perm.
Qed.

Lemma getMultipleSecrets_collect secretNames useCache choice w :
  ∃ w',
    getMultipleSecrets secretNames useCache choice w
    = (inl (mkBatch
              (assign_all
                 (assignments_ok (batch_outcomes secretNames useCache choice w))
                 empty_object)
              (if (0 <? keys_length
                          (assign_all
                             (assignments_err
                                (batch_outcomes secretNames useCache choice w))
                             empty_object))%nat
               then Some (assign_all
                            (assignments_err
                               (batch_outcomes secretNames useCache choice w))
                            empty_object)
               else None)), w')
    ∧ (batch_outcomes secretNames useCache choice w).*1 ≡ₚ secretNames.
Proof.
  unfold getMultipleSecrets, batch_outcomes.
  unfold bind at 1. unfold enter at 1. simpl.
  unfold bind at 1.
  match goal with
  | |- context [start_all secretNames useCache ?wa] =>
      destruct (start_all_total secretNames useCache wa)
        as (started & w1 & Hs & Hnames)
  end.
  rewrite Hs. unfold bind at 1.
  destruct (settle_all_collect (settle_sequence choice started)
              (empty_object, empty_object) w1) as [w2 Hsettle].
  rewrite Hsettle, fold_collect_split. simpl.
  exists w2. split; [reflexivity|].
  rewrite outcomes_names, settle_sequence_perm. by rewrite Hnames.
Qed.

(** X19 (fan-out and fan-in for ordinary names). When no name of the batch is
    [__proto__]: every name settles, in some order; a name that
    succeeded is a key of [secrets], holding the value of one of its
    successes; a name that failed is a key of [errors], holding the
    message of one of its failures; the two objects hold nothing else;
    and [errors] is omitted exactly when no name failed. *)
Lemma batch_collects secretNames useCache choice w :
  "__proto__" ∉ secretNames →
  ∃ batch w',
    getMultipleSecrets secretNames useCache choice w = (inl batch, w')
    ∧ (batch_outcomes secretNames useCache choice w).*1 ≡ₚ secretNames
    ∧ (∀ n v, (n, inl v) ∈ batch_outcomes secretNames useCache choice w →
         ∃ v', (n, inl v') ∈ batch_outcomes secretNames useCache choice w
               ∧ own (secrets batch) !! n = Some v')
    ∧ (∀ n v, own (secrets batch) !! n = Some v →
         (n, inl v) ∈ batch_outcomes secretNames useCache choice w)
    ∧ (∀ n e, (n, inr e) ∈ batch_outcomes secretNames useCache choice w →
         ∃ errs e',
           errors batch = Some errs
           ∧ (n, inr e') ∈ batch_outcomes secretNames useCache choice w
           ∧ own errs !! n = Some (JStr (error_message e')))
    ∧ (∀ errs n m, errors batch = Some errs → own errs !! n = Some m →
         ∃ e, (n, inr e) ∈ batch_outcomes secretNames useCache choice w
              ∧ m = JStr (error_message e))
    ∧ (errors batch = None
       ↔ ∀ n e, (n, inr e) ∉ batch_outcomes secretNames useCache choice w).
Proof.
  intros Hproto.
  destruct (getMultipleSecrets_collect secretNames useCache choice w)
    as (w' & Hrun & Hperm).
  set (os := batch_outcomes secretNames useCache choice w) in *.
  assert (Hkeys : Forall (λ o, fst o ≠ "__proto__") os).
  { apply Forall_forall. intros [k r] Hin Hk. simpl in Hk. subst k.
    apply Hproto. rewrite <- Hperm.
    apply list_elem_of_fmap. by exists ("__proto__", r). }
  destruct (assignments_keys os Hkeys) as [Hok Herr].
  set (errs := assign_all (assignments_err os) empty_object) in *.
  assert (Hfailed : ∀ n e, (n, inr e) ∈ os →
            ∃ e', (n, inr e') ∈ os
                  ∧ own errs !! n = Some (JStr (error_message e'))).
  { intros n e Hin.
    destruct (assign_all_assigned (assignments_err os) empty_object n
                (JStr (error_message e)) Herr) as (m & Hm & Hlook).
    { apply elem_of_assignments_err. by exists e. }
    apply elem_of_assignments_err in Hm as (e' & Hin' & ->). by exists e'. }
  assert (Hnonempty : ∀ n e, (n, inr e) ∈ os → (0 <? keys_length errs)%nat = true).
  { intros n e Hin. destruct (Hfailed n e Hin) as (e' & _ & Hlook).
    apply Nat.ltb_lt. unfold keys_length.
    assert (size (own errs) ≠ 0%nat); [|lia].
    apply map_size_non_empty_iff. intros Hempty.
    rewrite Hempty, lookup_empty in Hlook. done. }
  assert (Hkeys_err : ∀ n m, own errs !! n = Some m →
            ∃ e, (n, inr e) ∈ os ∧ m = JStr (error_message e)).
  { intros n m Hlook.
    pose proof (assign_all_lookup (assignments_err os) empty_object n Herr)
      as Hcases.
    change (assign_all (assignments_err os) empty_object) with errs in Hcases.
    destruct Hcases as [Heq|(m' & Hm' & Hlook')].
    - rewrite Heq in Hlook. simpl in Hlook. by rewrite lookup_empty in Hlook.
    - rewrite Hlook' in Hlook. injection Hlook as ->.
      by apply elem_of_assignments_err. }
  eexists _, w'. split; [exact Hrun|]. split; [exact Hperm|]. simpl.
  repeat split.
  - intros n v Hin.
    destruct (assign_all_assigned (assignments_ok os) empty_object n v Hok)
      as (v' & Hv' & Hlook); [by apply elem_of_assignments_ok|].
    exists v'. split; [by apply elem_of_assignments_ok|done].
  - intros n v Hlook.
    destruct (assign_all_lookup (assignments_ok os) empty_object n Hok)
      as [Heq|(v' & Hv' & Hlook')].
    + rewrite Heq in Hlook. simpl in Hlook. by rewrite lookup_empty in Hlook.
    + rewrite Hlook' in Hlook. injection Hlook as ->.
      by apply elem_of_assignments_ok.
  - intros n e Hin. exists errs. destruct (Hfailed n e Hin) as (e' & Hin' & Hl).
    exists e'. by rewrite (Hnonempty n e Hin).
  - intros errs' n m Hsome Hlook.
    destruct (0 <? keys_length errs)%nat; [|done].
    injection Hsome as <-. by apply Hkeys_err.
  - intros Hnone n e Hin. by rewrite (Hnonempty n e Hin) in Hnone.
  - intros Hnone.
    destruct (0 <? keys_length errs)%nat eqn:Hlen; [|done].
    apply Nat.ltb_lt in Hlen. unfold keys_length in Hlen.
    assert (Hne : size (own errs) ≠ 0%nat) by lia.
    apply map_size_ne_0_lookup in Hne as [n [m Hlook]].
    destruct (Hkeys_err n m Hlook) as (e & Hin & _).
    by destruct (Hnone n e).
Qed.

(** C5 (batch collection), at the name [__proto__]. A batch of that one
    name, not cached, whose command the store fails: the assignment
    [errors[secretName] = error.message] meets the accessor of
    [Object.prototype] and a string is ignored by it, so [errors] stays
    without keys and the result is [{ secrets: {}, errors: undefined }]:
    the failed name is recorded nowhere. *)
Theorem batch_drops_proto_name useCache choice w e :
  secretCache w !! "__proto__" = None →
  upstream (length (sent w)) "__proto__" = Failed e →
  fst (getMultipleSecrets ["__proto__"] useCache choice w)
  = inl (mkBatch empty_object None)
  ∧ batch_outcomes ["__proto__"] useCache choice w
    = [("__proto__", inr (rethrow "__proto__" e))].
Proof.
  intros Hcache Hup.
  assert (Hos : batch_outcomes ["__proto__"] useCache choice w
                = [("__proto__", inr (rethrow "__proto__" e))]).
  { unfold batch_outcomes. simpl. unfold bind at 1.
    match goal with
    | |- context [getSecret_start "__proto__" useCache ?wa] =>
        destruct (getSecret_start_cases "__proto__" useCache wa)
          as [(c & _ & Hc & _)|(n & _ & _ & _ & Hs)];
          [simpl in Hc; congruence|rewrite Hs]
    end.
    simpl.
    match goal with
    | |- context [settle_sequence choice ?l] =>
        pose proof (settle_sequence_perm choice l) as Hperm;
          apply Permutation_singleton_r in Hperm; rewrite Hperm
    end.
    simpl. unfold settle_value. simpl. rewrite Hup. reflexivity. }
  split; [|exact Hos].
  destruct (getMultipleSecrets_collect ["__proto__"] useCache choice w)
    as (w' & Hrun & _).
  rewrite Hrun, Hos. reflexivity.
Qed.

(** ** Further properties of a single fetch *)

Lemma rethrow_plain secretName e :
  ∃ message,
    rethrow secretName e = new_Error message ∧ message ≠ "".
Proof.
  destruct (rethrow_cases secretName e)
    as [[_ ->]|[[_ ->]|[[_ ->]|[_ ->]]]]; eexists; (split; [reflexivity|]);
    discriminate.
Qed.

Lemma getSecret_resume_error secretName outcome w e w' :
  getSecret_resume secretName outcome w = (inr e, w') →
  w' = w ∧ ∃ e0, e = rethrow secretName e0.
Proof.
  destruct outcome as [response|e0].
  - rewrite getSecret_resume_Responded.
    destruct (decode_cases response) as [[v Hv]|He].
    + rewrite Hv. discriminate.
    + rewrite He. intros [= <- <-]. split; [done|by eexists].
  - rewrite getSecret_resume_Failed. intros [= <- <-].
    split; [done|by eexists].
Qed.

(** The three ways a fetch ends: served from the cache; stored after a
    reply; failed after a reply. *)
Lemma getSecret_cases secretName useCache w :
  (∃ c, useCache = true
        ∧ secretCache w !! secretName = Some c
        ∧ clock (ticks w) - timestamp c < CACHE_TTL
        ∧ getSecret secretName useCache w
          = (inl (secret c),
             mkWorld (secretCache w) (S (ticks w)) (sent w)
               (entered w ++ [Call_getSecret secretName useCache])))
  ∨ (∃ n v, (ticks w ≤ n)%nat
        ∧ getSecret secretName useCache w
          = (inl v,
             stored secretName v
               (mkWorld (secretCache w) n (sent w ++ [secretName])
                  (entered w ++ [Call_getSecret secretName useCache]))))
  ∨ (∃ n e0, (ticks w ≤ n)%nat
        ∧ getSecret secretName useCache w
          = (inr (rethrow secretName e0),
             mkWorld (secretCache w) n (sent w ++ [secretName])
               (entered w ++ [Call_getSecret secretName useCache]))).
Proof.
  rewrite getSecret_unfold.
  destruct (getSecret_start_cases secretName useCache w)
    as [(c & Hu & Hc & Hfresh & Hs)|(n & Hn & _ & _ & Hs)]; rewrite Hs.
  - left. by exists c.
  - right.
    match goal with
    | |- context [getSecret_resume _ ?o ?wa] =>
        destruct (getSecret_resume_cases secretName o wa)
          as [[v Hr]|[e Hr]]
    end.
    + left. exists n, v. rewrite Hr. split; [lia|done].
    + right. destruct (getSecret_resume_error _ _ _ _ _ Hr) as [_ [e0 ->]].
      exists n, e0. rewrite Hr. split; [lia|done].
Qed.

(** X1 (frame). A fetch of one name, however it ends, leaves the entry
    of every other name as it was. *)
Theorem fetch_frame secretName useCache w other :
  other ≠ secretName →
  secretCache (snd (getSecret secretName useCache w)) !! other
  = secretCache w !! other.
Proof.
  intros Hne.
  destruct (getSecret_cases secretName useCache w)
    as [(c & _ & _ & _ & ->)|[(n & v & _ & ->)|(n & e0 & _ & ->)]]; simpl.
  - reflexivity.
  - by rewrite lookup_insert_ne.
  - reflexivity.
Qed.

(** X2 (one command at most). A fetch sends exactly one command, for its
    own name, or none; it sends none only when it serves a fresh entry,
    and then the cache, the timestamp of the entry included, is left as
    it was: being served does not renew an entry. *)
Theorem fetch_sends_at_most_once secretName useCache w :
  sent (snd (getSecret secretName useCache w)) = (sent w ++ [secretName])%list
  ∨ (sent (snd (getSecret secretName useCache w)) = sent w
     ∧ secretCache (snd (getSecret secretName useCache w)) = secretCache w
     ∧ useCache = true
     ∧ ∃ c, secretCache w !! secretName = Some c
            ∧ clock (ticks w) - timestamp c < CACHE_TTL
            ∧ fst (getSecret secretName useCache w) = inl (secret c)).
Proof.
  destruct (getSecret_cases secretName useCache w)
    as [(c & Hu & Hc & Hfresh & ->)|[(n & v & _ & ->)|(n & e0 & _ & ->)]];
    simpl.
  - right. repeat split; try done. by exists c.
  - by left.
  - by left.
Qed.

(** X3 (the result is what the cache holds). When a fetch returns a
    value, the cache holds that value for the name afterwards. *)
Theorem fetch_result_cached secretName useCache w v :
  fst (getSecret secretName useCache w) = inl v →
  ∃ c, secretCache (snd (getSecret secretName useCache w)) !! secretName
       = Some c
       ∧ secret c = v.
Proof.
  destruct (getSecret_cases secretName useCache w)
    as [(c & _ & Hc & _ & ->)|[(n & v' & _ & ->)|(n & e0 & _ & ->)]];
    simpl; intros [= <-].
  - by exists c.
  - eexists. rewrite lookup_insert_eq. done.
Qed.

(** X4 (no fallback to a stale entry). With a stale entry for the name
    and a store that fails the command, the fetch fails with the mapped
    error: the stale value is not returned, and it stays in the cache. *)
Theorem stale_entry_no_fallback secretName w c e :
  secretCache w !! secretName = Some c →
  CACHE_TTL ≤ clock (ticks w) - timestamp c →
  upstream (length (sent w)) secretName = Failed e →
  fst (getSecret secretName true w) = inr (rethrow secretName e)
  ∧ secretCache (snd (getSecret secretName true w)) !! secretName = Some c.
Proof.
  intros Hc Hstale Hup. rewrite getSecret_unfold.
  destruct (getSecret_start_cases secretName true w)
    as [(c' & _ & Hc' & Hfresh & _)|(n & _ & _ & _ & Hs)].
  - rewrite Hc in Hc'. injection Hc' as <-. lia.
  - rewrite Hs, Hup, getSecret_resume_Failed. simpl. done.
Qed.

(** X5 (invalidation forces a refetch). Right after [clearSecretCache]
    of a name, or after [clearCache], a fetch of the name that may use
    the cache sends a command upstream. *)
Theorem invalidate_forces_upstream secretName w :
  sent (snd (getSecret secretName true (snd (clearSecretCache secretName w))))
  = (sent w ++ [secretName])%list
  ∧ sent (snd (getSecret secretName true (snd (clearCache w))))
    = (sent w ++ [secretName])%list.
Proof.
  split.
  - destruct (fetch_sends_at_most_once secretName true
                (snd (clearSecretCache secretName w)))
      as [Hs|(_ & _ & _ & c & Hc & _)]; [exact Hs|].
    simpl in Hc. by rewrite lookup_delete_eq in Hc.
  - destruct (fetch_sends_at_most_once secretName true (snd (clearCache w)))
      as [Hs|(_ & _ & _ & c & Hc & _)]; [exact Hs|].
    simpl in Hc. by rewrite lookup_empty in Hc.
Qed.

(** X6 (raised errors are plain). Every error a fetch raises is an
    [Error] built by the [catch]: its name is [Error], it has neither
    [statusCode] nor [status], and its message is not empty. Whatever the
    store attached to its own error is gone. *)
Theorem raised_errors_plain secretName useCache w e :
  fst (getSecret secretName useCache w) = inr e →
  error_name e = "Error"
  ∧ error_statusCode e = None
  ∧ error_status e = None
  ∧ error_message e ≠ "".
Proof.
  destruct (getSecret_cases secretName useCache w)
    as [(c & _ & _ & _ & ->)|[(n & v & _ & ->)|(n & e0 & _ & ->)]];
    simpl; intros [= <-].
  destruct (rethrow_plain secretName e0) as (message & -> & Hne). done.
Qed.

(** ** Further properties of the batch fetch *)

Lemma settle_all_world items acc w :
  snd (settle_all items acc w) = fold_left settle_world items w.
Proof.
  revert acc w. induction items as [|item rest IH]; intros acc w; simpl.
  - reflexivity.
  - unfold bind at 1, settle_one, try_catch, bind at 1, settle_world at 2.
    destruct (settle_value item w) as [[v|e] w1]; simpl; apply IH.
Qed.

(** What one callback does to the state when it continues. *)
Lemma settle_world_cases w item :
  settle_world w item = w
  ∨ ∃ ticket v,
      snd item = Awaiting ticket
      ∧ fst (settle_value item w) = inl v
      ∧ settle_world w item = stored (fst item) v w.
Proof.
  unfold settle_world, settle_value. destruct item as [n [v|ticket]]; simpl.
  - by left.
  - destruct (getSecret_resume_cases n (upstream ticket n) w)
      as [[v Hr]|[e Hr]]; rewrite Hr; simpl.
    + right. by exists ticket, v.
    + by left.
Qed.

Lemma settle_all_keeps items w :
  sent (fold_left settle_world items w) = sent w
  ∧ entered (fold_left settle_world items w) = entered w
  ∧ (ticks w ≤ ticks (fold_left settle_world items w))%nat
  ∧ (∀ n, is_Some (secretCache w !! n) →
          is_Some (secretCache (fold_left settle_world items w) !! n))
  ∧ (∀ n, n ∉ items.*1 →
          secretCache (fold_left settle_world items w) !! n
          = secretCache w !! n).
Proof.
  revert w. induction items as [|item rest IH]; intros w; simpl.
  - repeat split; auto.
  - destruct (IH (settle_world w item)) as (Hs & He & Ht & Hk & Hf).
    destruct (settle_world_cases w item) as [Heq|(ticket & v & _ & _ & Heq)];
      rewrite Heq in *; simpl in *.
    + repeat split; auto. intros n Hn.
      apply not_elem_of_cons in Hn as [_ Hn]. by apply Hf.
    + repeat split; auto; [lia| |].
      * intros n Hn. apply Hk.
        destruct (decide (fst item = n)) as [->|Hne].
        -- by rewrite lookup_insert_eq.
        -- by rewrite lookup_insert_ne.
      * intros n Hn. apply not_elem_of_cons in Hn as [Hne Hn].
        rewrite (Hf n Hn). apply lookup_insert_ne. congruence.
Qed.

(** The started callbacks of a batch, and the state they leave. *)
Lemma start_all_effect secretNames useCache w :
  ∃ started w1,
    start_all secretNames useCache w = (inl started, w1)
    ∧ started.*1 = secretNames
    ∧ secretCache w1 = secretCache w
    ∧ (ticks w ≤ ticks w1)%nat
    ∧ entered w1
      = (entered w ++ ((λ n, Call_getSecret n useCache) <$> secretNames))%list
    ∧ sent w1
      = (sent w
         ++ (List.filter (λ item, negb (is_served item)) started).*1)%list
    ∧ Forall (λ item,
                match snd item with
                | Served v =>
                    useCache = true
                    ∧ ∃ c, secretCache w !! fst item = Some c ∧ secret c = v
                | Awaiting ticket => sent w1 !! ticket = Some (fst item)
                end) started.
Proof.
  revert w. induction secretNames as [|n rest IH]; intros w; simpl.
  - eexists _, _. split; [reflexivity|]. simpl.
    rewrite !app_nil_r. repeat split; auto.
  - unfold bind at 1.
    destruct (getSecret_start_cases n useCache w)
      as [(c & Hu & Hc & _ & Hs)|(k & Hk & _ & _ & Hs)]; rewrite Hs;
      unfold bind at 1;
      match goal with
      | |- context [start_all rest useCache ?wa] =>
          destruct (IH wa)
            as (started & w1 & -> & Hnames & Hcache & Hticks & Hent & Hsent
                & Hall)
      end; simpl in *; eexists _, _; (split; [reflexivity|]); simpl.
    + split; [by f_equal|]. split; [done|]. split; [lia|].
      split; [by rewrite Hent, <- app_assoc|]. split; [done|].
      constructor; [|exact Hall]. simpl. split; [done|]. by exists c.
    + split; [by f_equal|]. split; [done|]. split; [lia|].
      split; [by rewrite Hent, <- app_assoc|].
      split; [by rewrite Hsent, <- app_assoc|].
      constructor; [|exact Hall]. simpl.
      rewrite Hsent, <- app_assoc. simpl.
      rewrite lookup_app_r by lia. by rewrite Nat.sub_diag.
Qed.

(** The state after a batch, from the state after its callbacks have
    started. *)
Lemma getMultipleSecrets_world secretNames useCache choice w :
  ∃ started w1,
    start_all secretNames useCache
      (snd (enter (Call_getMultipleSecrets secretNames useCache) w))
    = (inl started, w1)
    ∧ snd (getMultipleSecrets secretNames useCache choice w)
      = fold_left settle_world (settle_sequence choice started) w1
    ∧ batch_outcomes secretNames useCache choice w
      = outcomes (settle_sequence choice started) w1.
Proof.
  destruct (start_all_total secretNames useCache
              (snd (enter (Call_getMultipleSecrets secretNames useCache) w)))
    as (started & w1 & Hs & _).
  exists started, w1. split; [exact Hs|].
  unfold batch_outcomes. rewrite Hs. split; [|reflexivity].
  unfold getMultipleSecrets. unfold bind at 1. unfold enter at 1.
  unfold enter in Hs. simpl in *. unfold bind at 1. rewrite Hs.
  unfold bind at 1.
  rewrite <- (settle_all_world _ (empty_object, empty_object)).
  destruct (settle_all (settle_sequence choice started)
              (empty_object, empty_object) w1) as [[acc|e] w2]; reflexivity.
Qed.

Lemma awaiting_names_sublist (started : list (string * Started)) :
  (List.filter (λ item, negb (is_served item)) started).*1
  `sublist_of` started.*1.
Proof.
  induction started as [|item rest IH]; simpl.
  - constructor.
  - destruct (negb (is_served item)); simpl.
    + by constructor.
    + by apply sublist_cons.
Qed.

Lemma all_awaiting (started : list (string * Started)) :
  Forall (λ item, is_served item = false) started →
  List.filter (λ item, negb (is_served item)) started = started.
Proof.
  induction 1 as [|item rest Hitem _ IH]; simpl.
  - reflexivity.
  - rewrite Hitem. simpl. by rewrite IH.
Qed.

(** X7 (the empty batch). [getMultipleSecrets([])], which the route never
    lets through, returns [{ secrets: {}, errors: undefined }]; it sends
    nothing and leaves the cache and the clock alone. *)
Theorem batch_empty useCache choice w :
  getMultipleSecrets [] useCache choice w
  = (inl (mkBatch empty_object None),
     mkWorld (secretCache w) (ticks w) (sent w)
       (entered w ++ [Call_getMultipleSecrets [] useCache])).
Proof.
  unfold getMultipleSecrets. unfold bind at 1. unfold enter at 1. simpl.
  unfold bind at 1. unfold ret at 1.
  pose proof (settle_sequence_perm choice []) as Hperm.
  apply Permutation_nil_r in Hperm. rewrite Hperm. reflexivity.
Qed.

(** X8 (one command per listed name). The commands a batch sends are a
    sub-list of its names, in the order of the list, whatever the order
    of the replies. When the cache is bypassed, or holds none of the
    names, there is one command per listed name, repeated names
    included: nothing is coalesced. *)
Theorem batch_sends_per_name secretNames useCache choice w :
  ∃ commands,
    sent (snd (getMultipleSecrets secretNames useCache choice w))
    = (sent w ++ commands)%list
    ∧ commands `sublist_of` secretNames
    ∧ (useCache = false
       ∨ (∀ n, n ∈ secretNames → secretCache w !! n = None) →
       commands = secretNames).
Proof.
  destruct (getMultipleSecrets_world secretNames useCache choice w)
    as (started & w1 & Hs & -> & _).
  destruct (start_all_effect secretNames useCache
              (snd (enter (Call_getMultipleSecrets secretNames useCache) w)))
    as (started' & w1' & Hs' & Hnames & _ & _ & _ & Hsent & Hall).
  rewrite Hs in Hs'. injection Hs' as <- <-.
  destruct (settle_all_keeps (settle_sequence choice started) w1)
    as (-> & _).
  exists ((List.filter (λ item, negb (is_served item)) started).*1).
  split; [exact Hsent|]. split.
  - rewrite <- Hnames. apply awaiting_names_sublist.
  - intros Hmiss. rewrite <- Hnames. f_equal. apply all_awaiting.
    apply Forall_forall. intros [n st] Hin.
    pose proof (proj1 (Forall_forall _ _) Hall _ Hin) as Hitem.
    simpl in Hitem. unfold is_served. simpl.
    destruct st as [v|ticket]; [|done].
    destruct Hitem as (Hu & c & Hc & _). simpl in Hc.
    destruct Hmiss as [Hb | Hnone]; [congruence|].
    rewrite Hnone in Hc; [done|].
    rewrite <- Hnames. apply list_elem_of_fmap. by exists (n, Served v).
Qed.

(** X9 (the calls of a batch). A batch enters [getSecret] once per
    listed name, in the order of the list, each time with the flag the
    batch was given. *)
Theorem batch_enters secretNames useCache choice w :
  entered (snd (getMultipleSecrets secretNames useCache choice w))
  = (entered w
     ++ Call_getMultipleSecrets secretNames useCache
        :: ((λ n, Call_getSecret n useCache) <$> secretNames))%list.
Proof.
  destruct (getMultipleSecrets_world secretNames useCache choice w)
    as (started & w1 & Hs & -> & _).
  destruct (start_all_effect secretNames useCache
              (snd (enter (Call_getMultipleSecrets secretNames useCache) w)))
    as (started' & w1' & Hs' & _ & _ & _ & Hent & _).
  rewrite Hs in Hs'. injection Hs' as <- <-.
  destruct (settle_all_keeps (settle_sequence choice started) w1)
    as (_ & -> & _).
  rewrite Hent. simpl. by rewrite <- app_assoc.
Qed.

Lemma settle_value_success item w v :
  fst (settle_value item w) = inl v →
  (snd item = Served v ∧ settle_world w item = w)
  ∨ settle_world w item = stored (fst item) v w.
Proof.
  unfold settle_world, settle_value. destruct item as [n [v0|ticket]]; simpl.
  - intros [= ->]. by left.
  - destruct (getSecret_resume_cases n (upstream ticket n) w)
      as [[v' Hr]|[e Hr]]; rewrite Hr; simpl; intros [= <-]. by right.
Qed.

Lemma outcomes_cached items w n v :
  Forall (λ item, ∀ v0, snd item = Served v0 →
                        is_Some (secretCache w !! fst item)) items →
  (n, inl v) ∈ outcomes items w →
  is_Some (secretCache (fold_left settle_world items w) !! n).
Proof.
  revert w. induction items as [|item rest IH]; intros w Hall Hin; simpl in *.
  - by apply elem_of_nil in Hin.
  - apply Forall_cons in Hall as [Hitem Hrest].
    destruct (settle_all_keeps [item] w) as (_ & _ & _ & Hstep & _).
    simpl in Hstep.
    apply elem_of_cons in Hin as [[= -> Hv]|Hin].
    + destruct (settle_all_keeps rest (settle_world w item))
        as (_ & _ & _ & Hkeep & _).
      apply Hkeep.
      destruct (settle_value_success item w v (eq_sym Hv))
        as [[Hserved ->]| ->].
      * by apply (Hitem v).
      * simpl. by rewrite lookup_insert_eq.
    + apply IH; [|exact Hin].
      eapply Forall_impl; [exact Hrest|].
      intros item' Hserved v0 Hv0. apply Hstep. by apply (Hserved v0).
Qed.

(** X10 (what a batch does to the cache). A batch removes no entry; it
    leaves the entry of every name it does not list as it was; and every
    name that succeeded in it has an entry afterwards. *)
Theorem batch_cache_effect secretNames useCache choice w n :
  (is_Some (secretCache w !! n) →
   is_Some (secretCache
              (snd (getMultipleSecrets secretNames useCache choice w)) !! n))
  ∧ (n ∉ secretNames →
     secretCache (snd (getMultipleSecrets secretNames useCache choice w)) !! n
     = secretCache w !! n)
  ∧ (∀ v, (n, inl v) ∈ batch_outcomes secretNames useCache choice w →
          is_Some (secretCache
                     (snd (getMultipleSecrets secretNames useCache choice w))
                   !! n)).
Proof.
  destruct (getMultipleSecrets_world secretNames useCache choice w)
    as (started & w1 & Hs & -> & ->).
  destruct (start_all_effect secretNames useCache
              (snd (enter (Call_getMultipleSecrets secretNames useCache) w)))
    as (started' & w1' & Hs' & Hnames & Hcache & _ & _ & _ & Hall).
  rewrite Hs in Hs'. injection Hs' as <- <-. simpl in Hcache.
  destruct (settle_all_keeps (settle_sequence choice started) w1)
    as (_ & _ & _ & Hkeep & Hframe).
  split; [|split].
  - intros Hn. apply Hkeep. by rewrite Hcache.
  - intros Hn. rewrite Hframe; [by rewrite Hcache|].
    rewrite settle_sequence_perm, Hnames. exact Hn.
  - intros v Hin. apply (outcomes_cached _ _ _ v); [|exact Hin].
    rewrite settle_sequence_perm.
    eapply Forall_impl; [exact Hall|].
    intros [n0 st] Hitem v0 Hv0. simpl in *. subst st.
    destruct Hitem as (_ & c & Hc & _).
    rewrite Hcache. by exists c.
Qed.

(** ** Further properties of the HTTP boundary *)

(** X11 (an accepted batch is always answered 200). When [names] is a
    non-empty array of strings, [POST /secrets/batch] answers 200 with
    the result of [getMultipleSecrets], also when every name failed. The
    flag it passes is [true] when the body has no [useCache], and the
    truthiness of that field otherwise. *)
Theorem post_batch_accepts body items secretNames choice w :
  Js.get "names" body = Some (JArr items) →
  items ≠ [] →
  names_of items = Some secretNames →
  ∃ batch w',
    getMultipleSecrets secretNames
      (truthy (default (JBool true) (Js.get "useCache" body))) choice w
    = (inl batch, w')
    ∧ post_batch body choice w = Some (mkRes 200 (BatchBody batch), w').
Proof.
  intros Hnames Hne Hstrings.
  destruct (getMultipleSecrets_collect secretNames
              (truthy (default (JBool true) (Js.get "useCache" body)))
              choice w) as (w' & Hrun & _).
  eexists _, w'. split; [exact Hrun|].
  destruct items as [|x items]; [done|].
  unfold post_batch. destruct body; try discriminate.
  cbv zeta. rewrite Hnames.
  change (names_rejected (Some (JArr (x :: items)))) with false.
  cbv iota. rewrite Hstrings. simpl in Hrun |- *. unfold handle, bind at 1.
  rewrite Hrun. reflexivity.
Qed.

Lemma get_name_unfold params_name query_useCache w :
  get_name params_name query_useCache w
  = match decodeURIComponent params_name with
    | Some secretName =>
        match getSecret secretName (not_false query_useCache) w with
        | (inl v, w') => (mkRes 200 (SecretBody secretName v), w')
        | (inr e, w') => (errorHandler e, w')
        end
    | None => (errorHandler (mkError "URIError" "URI malformed" None None), w)
    end.
Proof.
  unfold get_name, handle.
  destruct (decodeURIComponent params_name) as [secretName|].
  - unfold bind at 1. unfold ret at 1. unfold bind at 1.
    destruct (getSecret secretName (not_false query_useCache) w)
      as [[v|e] w']; reflexivity.
  - reflexivity.
Qed.

(** X12 (the statuses of the handler of [GET /secrets/:name]). Run on
    the parameter [req.params.name] that the router hands it, the handler
    answers 200 with the decoded name and the value of the fetch, or 500
    with an error envelope whose message is not empty; no failure of the
    adapter, the missing secret and the denied access included, gets
    another status. What the router answers before the handler runs is
    not part of this. *)
Theorem get_name_statuses params_name query_useCache w :
  (∃ secretName v,
     decodeURIComponent params_name = Some secretName
     ∧ fst (getSecret secretName (not_false query_useCache) w) = inl v
     ∧ fst (get_name params_name query_useCache w)
       = mkRes 200 (SecretBody secretName v))
  ∨ (∃ message,
       message ≠ ""
       ∧ fst (get_name params_name query_useCache w)
         = mkRes 500 (ErrorEnvelope message 500 NODE_ENV_development)).
Proof.
  rewrite get_name_unfold.
  destruct (decodeURIComponent params_name) as [secretName|] eqn:Hdec.
  - destruct (getSecret secretName (not_false query_useCache) w)
      as [[v|e] w'] eqn:Hget.
    + left. exists secretName, v. rewrite Hget. repeat split; reflexivity.
    + right.
      destruct (raised_errors_plain secretName (not_false query_useCache) w e)
        as (_ & Hcode & Hstatus & Hmsg); [by rewrite Hget|].
      exists (error_message e). split; [exact Hmsg|].
      unfold errorHandler, fst. rewrite Hcode, Hstatus. simpl.
      apply String.eqb_neq in Hmsg. unfold truthy_string. by rewrite Hmsg.
  - right. exists "URI malformed". split; [discriminate|]. reflexivity.
Qed.

(** X13 (a parameter that does not decode a second time). When the
    handler's own [decodeURIComponent(req.params.name)] of line 99
    throws, on the parameter that the router has already decoded once,
    the handler answers 500 and the state is as it was: the adapter is
    not entered and nothing is sent upstream. *)
Theorem malformed_name params_name query_useCache w :
  decodeURIComponent params_name = None →
  res_status (fst (get_name params_name query_useCache w)) = 500
  ∧ snd (get_name params_name query_useCache w) = w.
Proof.
  intros Hdec. rewrite get_name_unfold, Hdec. done.
Qed.

(** X14 ([errorHandler]). The status of the answer is never 0 and is
    repeated in the envelope; the message is never empty. The status is
    a non-zero [err.statusCode], else a non-zero [err.status], else
    500. *)
Theorem errorHandler_status err :
  ∃ status message,
    errorHandler err
    = mkRes status (ErrorEnvelope message status NODE_ENV_development)
    ∧ status ≠ 0
    ∧ message ≠ ""
    ∧ (error_message err ≠ "" → message = error_message err)
    ∧ (∀ c, error_statusCode err = Some c → c ≠ 0 → status = c)
    ∧ (∀ c, error_statusCode err = None ∨ error_statusCode err = Some 0 →
            error_status err = Some c → c ≠ 0 → status = c)
    ∧ (error_statusCode err = None ∨ error_statusCode err = Some 0 →
       error_status err = None ∨ error_status err = Some 0 →
       status = 500).
Proof.
  unfold errorHandler. eexists _, _. split; [reflexivity|].
  split; [|split; [|split; [|split; [|split]]]].
  - unfold number_or.
    destruct (error_statusCode err) as [c|]; [destruct (Z.eqb_spec c 0)|];
      try done;
      (destruct (error_status err) as [s|]; [destruct (Z.eqb_spec s 0)|]);
      done.
  - unfold truthy_string.
    destruct (String.eqb_spec (error_message err) ""); simpl; done.
  - intros Hne. apply String.eqb_neq in Hne. unfold truthy_string.
    by rewrite Hne.
  - intros c -> Hc. simpl. apply Z.eqb_neq in Hc. by rewrite Hc.
  - intros c [-> | ->] -> Hc; simpl; apply Z.eqb_neq in Hc; by rewrite Hc.
  - intros [-> | ->] [-> | ->]; reflexivity.
Qed.

(** X15 (a failed listing). Every failure of [GET /secrets] is answered
    500. A denied access gets a fixed message that drops what the store
    said; any other failure gets the store's message behind a fixed
    prefix. *)
Theorem list_failure query_maxResults e :
  list_upstream (or_100 (parseInt query_maxResults)) = ListFailed e →
  ∃ message,
    get_list query_maxResults
    = inr (mkRes 500 (ErrorEnvelope message 500 NODE_ENV_development))
    ∧ (error_name e = "AccessDeniedException" →
       message = "Access denied to list secrets. Check IAM role permissions.")
    ∧ (error_name e ≠ "AccessDeniedException" →
       message = "Failed to list secrets: " ++ error_message e).
Proof.
  intros Hup. unfold get_list, listSecrets. rewrite Hup.
  destruct (String.eqb_spec (error_name e) "AccessDeniedException")
    as [Hname|Hname]; eexists; (split; [reflexivity|]); split; done.
Qed.

(** X16 (a listing). When the store answers, [GET /secrets] returns the
    records of the reply with their number as [count]; a reply without
    [SecretList] gives the empty list and the count 0. *)
Theorem list_success query_maxResults response :
  list_upstream (or_100 (parseInt query_maxResults)) = Listed response →
  ∃ body,
    get_list query_maxResults = inl body
    ∧ list_count body = length (list_secrets body)
    ∧ (∀ records, SecretList response = Some records →
                  list_secrets body = records)
    ∧ (SecretList response = None →
       list_secrets body = [] ∧ list_count body = 0%nat).
Proof.
  intros Hup. unfold get_list, listSecrets. rewrite Hup.
  eexists. split; [reflexivity|]. simpl. split; [reflexivity|]. split.
  - by intros records ->.
  - by intros ->.
Qed.

(** ** Properties of histories *)

Lemma cache_sound_mono w w' :
  secretCache w' = secretCache w →
  (∀ n, n ∈ sent w → n ∈ sent w') →
  (ticks w ≤ ticks w')%nat →
  cache_sound w → cache_sound w'.
Proof.
  intros Hcache Hsent Hticks Hsound n c Hc. rewrite Hcache in Hc.
  destruct (Hsound n c Hc) as (Hn & k & Hk & Ht).
  split; [by apply Hsent|]. exists k. split; [lia|done].
Qed.

Lemma cache_sound_stored secretName v w :
  secretName ∈ sent w → cache_sound w → cache_sound (stored secretName v w).
Proof.
  intros Hin Hsound n c Hc. unfold stored in *. simpl in *.
  destruct (decide (secretName = n)) as [->|Hne].
  - rewrite lookup_insert_eq in Hc. injection Hc as <-. simpl.
    split; [done|]. exists (ticks w). split; [lia|done].
  - rewrite lookup_insert_ne in Hc by done.
    destruct (Hsound n c Hc) as (Hn & k & Hk & Ht).
    split; [done|]. exists k. split; [lia|done].
Qed.

Lemma cache_sound_settle items w :
  Forall (λ item, ∀ ticket, snd item = Awaiting ticket →
                            fst item ∈ sent w) items →
  cache_sound w → cache_sound (fold_left settle_world items w).
Proof.
  revert w. induction items as [|item rest IH]; intros w Hall Hsound; simpl.
  - exact Hsound.
  - apply Forall_cons in Hall as [Hitem Hrest].
    destruct (settle_world_cases w item)
      as [->|(ticket & v & Hticket & _ & ->)].
    + by apply IH.
    + apply IH; [exact Hrest|].
      apply cache_sound_stored; [|exact Hsound]. by apply (Hitem ticket).
Qed.

Ltac in_sent :=
  intros; apply elem_of_app;
  first [by left | right; by constructor].

Lemma run_operation_sound op w :
  cache_sound w → cache_sound (run_operation op w).
Proof.
  intros Hsound. destruct op as [n uc|n uc|ticket|ns uc choice| |n]; simpl.
  - destruct (getSecret_cases n uc w)
      as [(c & _ & _ & _ & ->)|[(k & v & Hk & ->)|(k & e0 & Hk & ->)]]; simpl.
    + apply (cache_sound_mono w); simpl; auto.
    + apply cache_sound_stored; simpl; [in_sent|].
      apply (cache_sound_mono w); simpl; auto. in_sent.
    + apply (cache_sound_mono w); simpl; auto. in_sent.
  - destruct (getSecret_start_cases n uc w)
      as [(c & _ & _ & _ & ->)|(k & Hk & _ & _ & ->)]; simpl.
    + apply (cache_sound_mono w); simpl; auto.
    + apply (cache_sound_mono w); simpl; auto; [in_sent|lia].
  - destruct (sent w !! ticket) as [n|] eqn:Hticket; [|exact Hsound].
    destruct (getSecret_resume_cases n (upstream ticket n) w)
      as [[v ->]|[e ->]]; simpl; [|exact Hsound].
    apply cache_sound_stored; [|exact Hsound].
    by apply list_elem_of_lookup_2 in Hticket.
  - destruct (getMultipleSecrets_world ns uc choice w)
      as (started & w1 & Hs & -> & _).
    destruct (start_all_effect ns uc
                (snd (enter (Call_getMultipleSecrets ns uc) w)))
      as (started' & w1' & Hs' & _ & Hcache & Hticks & _ & Hsent & Hall).
    rewrite Hs in Hs'. injection Hs' as <- <-. simpl in *.
    apply cache_sound_settle.
    + rewrite settle_sequence_perm.
      eapply Forall_impl; [exact Hall|].
      intros [n0 st] Hitem ticket Hst. simpl in *. subst st.
      by apply list_elem_of_lookup_2 in Hitem.
    + apply (cache_sound_mono w); auto.
      intros n Hn. rewrite Hsent. in_sent.
  - intros n c Hc. simpl in Hc. by rewrite lookup_empty in Hc.
  - intros m c Hc. simpl in *.
    apply lookup_delete_Some in Hc as [_ Hc]. by apply Hsound.
Qed.

(** X17 (what the cache can hold). After any history of fetches,
    batches, interleaved halves of fetches and invalidations that starts
    with the empty cache, every entry belongs to a name that was sent
    upstream and carries a clock reading that was taken. *)
Theorem cache_sound_reachable ops :
  cache_sound (run_operations ops initial_world).
Proof.
  assert (Hgen : ∀ w, cache_sound w → cache_sound (run_operations ops w)).
  { unfold run_operations. induction ops as [|op rest IH]; intros w Hw; simpl.
    - exact Hw.
    - apply IH. by apply run_operation_sound. }
  apply Hgen. intros n c Hc. simpl in Hc. by rewrite lookup_empty in Hc.
Qed.

Lemma run_operation_keeps op w n :
  is_fetch op = true →
  is_Some (secretCache w !! n) →
  is_Some (secretCache (run_operation op w) !! n).
Proof.
  intros Hfetch Hn.
  destruct op as [m uc|m uc|ticket|ns uc choice| |m]; simpl; try done.
  - destruct (getSecret_cases m uc w)
      as [(c & _ & _ & _ & ->)|[(k & v & Hk & ->)|(k & e0 & Hk & ->)]];
      simpl; try done.
    destruct (decide (m = n)) as [->|Hne].
    + by rewrite lookup_insert_eq.
    + by rewrite lookup_insert_ne.
  - destruct (getSecret_start_cases m uc w)
      as [(c & _ & _ & _ & ->)|(k & Hk & _ & _ & ->)]; simpl; done.
  - destruct (sent w !! ticket) as [m|]; [|done].
    destruct (getSecret_resume_cases m (upstream ticket m) w)
      as [[v ->]|[e ->]]; simpl; [|done].
    destruct (decide (m = n)) as [->|Hne].
    + by rewrite lookup_insert_eq.
    + by rewrite lookup_insert_ne.
  - by apply batch_cache_effect.
Qed.

(** X18 (only invalidation removes). A history without [clearCache] and
    [clearSecretCache] removes no entry from the cache: a name that has
    an entry keeps one, stale or not. *)
Theorem fetches_never_evict ops w n :
  forallb is_fetch ops = true →
  is_Some (secretCache w !! n) →
  is_Some (secretCache (run_operations ops w) !! n).
Proof.
  unfold run_operations. revert w.
  induction ops as [|op rest IH]; intros w Hops Hn; simpl in *.
  - exact Hn.
  - apply andb_true_iff in Hops as [Hop Hrest].
    apply IH; [exact Hrest|]. by apply run_operation_keeps.
Qed.

End Program.

(** ** The theorems at work in the sample environment *)

Local Abbreviation sample_getSecret :=
  (getSecret sample_parse sample_buffer sample_clock sample_upstream).
Local Abbreviation sample_getSecret_resume :=
  (getSecret_resume sample_parse sample_buffer sample_clock).
Local Abbreviation sample_get_name :=
  (get_name sample_parse sample_buffer sample_decodeURIComponent false
     sample_clock sample_upstream).
Local Abbreviation sample_post_batch :=
  (post_batch sample_parse sample_buffer false sample_clock sample_upstream).
Local Abbreviation sample_getMultipleSecrets :=
  (getMultipleSecrets sample_parse sample_buffer sample_clock sample_upstream).

(** [db-creds] fetched at minute 0 and asked for again at minute 1. *)
Lemma cache_freshness_witness :
  fst (sample_getSecret "db-creds" true
         (snd (sample_getSecret "db-creds" true initial_world)))
  = inl (JObj [])
  ∧ sent (snd (sample_getSecret "db-creds" true
                 (snd (sample_getSecret "db-creds" true initial_world))))
    = ["db-creds"].
Proof.
  destruct (cache_freshness sample_parse sample_buffer sample_clock
              sample_upstream "db-creds" true (JObj []) initial_world
              (snd (sample_getSecret "db-creds" true initial_world)))
    as (_ & Hstored & Hlater).
  - reflexivity.
  - vm_compute. discriminate.
  - destruct (Hlater _ Hstored) as [Hfresh _].
    destruct Hfresh as [Hvalue Hsent]; [vm_compute; reflexivity|].
    split; [exact Hvalue|]. rewrite Hsent. reflexivity.
Defined.


(** A stale entry survives a fetch that the store fails. *)
Lemma failed_fetch_keeps_cache_witness :
  secretCache
    (snd (sample_getSecret "gone" true
            (mkWorld {["gone" := mkEntry (JStr "old") 0]} 10 [] [])))
  = {["gone" := mkEntry (JStr "old") 0]}.
Proof.
  refine (proj1 (failed_fetch_keeps_cache sample_parse sample_buffer
                   sample_clock sample_upstream "gone" true
                   (mkWorld {["gone" := mkEntry (JStr "old") 0]} 10 [] [])
                   (new_Error "Secret 'gone' not found") _ _)).
  vm_compute. reflexivity.
Defined.

Lemma invalidate_idempotent_witness :
  snd (clearSecretCache "never-cached"
         (mkWorld {["db-creds" := mkEntry (JObj []) 0]} 1 ["db-creds"] []))
  = mkWorld {["db-creds" := mkEntry (JObj []) 0]} 1 ["db-creds"] [].
Proof.
  destruct (invalidate_idempotent "never-cached"
              (mkWorld {["db-creds" := mkEntry (JObj []) 0]} 1 ["db-creds"] []))
    as (_ & _ & Hnoop & _).
  apply Hnoop. reflexivity.
Defined.

Lemma error_taxonomy_witness :
  sample_getSecret "gone" true initial_world
  = (inr (new_Error "Secret 'gone' not found"),
     mkWorld ∅ 0 ["gone"] [Call_getSecret "gone" true]).
Proof.
  apply (proj1 (proj2 (error_taxonomy sample_parse sample_buffer sample_clock
                         sample_upstream "gone" not_found_error))
           true initial_world 0%nat).
  - reflexivity.
  - reflexivity.
Defined.

Lemma decode_order_witness :
  sample_getSecret_resume "db-creds"
    (Responded (mkResponse (Some "plain text") None)) initial_world
  = (inl (JStr "plain text"),
     stored sample_clock "db-creds" (JStr "plain text") initial_world).
Proof.
  apply (proj1 (proj2 (decode_order sample_parse sample_buffer sample_clock
                         "db-creds" (mkResponse (Some "plain text") None)
                         initial_world)) "plain text").
  - reflexivity.
  - discriminate.
Defined.

(** C3 as stated, at a textual payload that is the empty string: the
    fetch fails instead of returning the text. *)
Lemma decode_order_counterexample :
  ¬ (∀ response text secretName w,
       SecretString response = Some text →
       fst (sample_getSecret_resume secretName (Responded response) w)
       = inl (parse_or_raw sample_parse text))
  ∧ sample_getSecret_resume "db-creds" (Responded (mkResponse (Some "") None))
      initial_world
    = (inr (new_Error
              "Failed to retrieve secret 'db-creds': Secret value is empty"),
       initial_world).
Proof.
  split; [|reflexivity].
  intros Hclaim.
  specialize (Hclaim (mkResponse (Some "") None) "" "db-creds" initial_world
                eq_refl).
  vm_compute in Hclaim. discriminate.
Qed.

Lemma not_found_status_witness :
  sample_get_name "gone" None initial_world
  = (mkRes 500 (ErrorEnvelope "Secret 'gone' not found" 500 false),
     mkWorld ∅ 0 ["gone"] [Call_getSecret "gone" true]).
Proof.
  apply (not_found_status sample_parse sample_buffer sample_decodeURIComponent
           false sample_clock sample_upstream "gone" "gone" None initial_world
           0%nat _ not_found_error); reflexivity.
Defined.

Lemma useCache_query_witness :
  ∃ useCache,
    entered (snd (sample_get_name "db-creds" (Some (QueryText "FALSE"))
                    initial_world))
    = [Call_getSecret "db-creds" useCache]
    ∧ (useCache = false ↔ Some (QueryText "FALSE") = Some (QueryText "false")).
Proof.
  apply (useCache_query sample_parse sample_buffer sample_decodeURIComponent
           false sample_clock sample_upstream "db-creds" "db-creds"
           (Some (QueryText "FALSE")) initial_world).
  reflexivity.
Defined.

Lemma batch_rejects_witness :
  sample_post_batch (JObj [("names", JStr "db-creds")]) [] initial_world
  = Some (mkRes 400
            (ErrorEnvelope
               ("Request body must include a " ++ dquote ++ "names" ++ dquote
                ++ " array with at least one secret name") 400 false),
          initial_world).
Proof.
  apply (batch_rejects sample_parse sample_buffer false sample_clock
           sample_upstream (JObj [("names", JStr "db-creds")]) [] initial_world).
  - discriminate.
  - right. left. exists (JStr "db-creds"). split; reflexivity.
Defined.

Lemma batch_drops_proto_name_witness :
  fst (sample_getMultipleSecrets ["__proto__"] true [] initial_world)
  = inl (mkBatch empty_object None).
Proof.
  apply (batch_drops_proto_name sample_parse sample_buffer sample_clock
           sample_upstream true [] initial_world not_found_error);
    reflexivity.
Defined.

(** Failure isolation: a batch of a stored and an unknown name, whichever
    reply arrives first. *)
Example failure_isolation_scenario :
  ∀ choice, choice = [] ∨ choice = [1%nat] →
    fst (sample_getMultipleSecrets ["db-creds"; "B"] true choice initial_world)
    = inl (mkBatch
             (mkObject {["db-creds" := JObj []]} ObjectPrototype)
             (Some (mkObject {["B" := JStr "Secret 'B' not found"]}
                      ObjectPrototype))).
Proof. intros choice [-> | ->]; vm_compute; reflexivity. Qed.

(** The same batch with the unknown name [__proto__]: the failure leaves
    no trace in the result. *)
Example proto_name_scenario :
  fst (sample_getMultipleSecrets ["db-creds"; "__proto__"] true []
         initial_world)
  = inl (mkBatch (mkObject {["db-creds" := JObj []]} ObjectPrototype) None).
Proof. vm_compute. reflexivity. Qed.

(** ** The further properties at work in the sample environment *)

Local Abbreviation sample_run :=
  (run_operations sample_parse sample_buffer sample_clock sample_upstream).
Local Abbreviation sample_batch_outcomes :=
  (batch_outcomes sample_parse sample_buffer sample_clock sample_upstream).
Local Abbreviation strict_decodeURIComponent :=
  (λ s : string, if String.eqb s "%" then None else Some s).
Local Abbreviation sample_parseInt :=
  (λ q : option QueryValue,
     match q with
     | Some (QueryText "5") => Finite 5
     | Some (QueryText "0") => Finite 0
     | _ => NaN
     end).
Local Abbreviation sample_get_list :=
  (get_list false sample_list_upstream sample_parseInt).
Local Abbreviation stale_world :=
  (mkWorld {["gone" := mkEntry (JStr "old") 0]} 10 [] []).

Lemma fetch_frame_witness :
  secretCache (snd (sample_getSecret "db-creds" false stale_world)) !! "gone"
  = Some (mkEntry (JStr "old") 0).
Proof.
  rewrite (fetch_frame sample_parse sample_buffer sample_clock sample_upstream
             "db-creds" false stale_world "gone").
  - reflexivity.
  - discriminate.
Defined.

Lemma fetch_result_cached_witness :
  ∃ c, secretCache (snd (sample_getSecret "db-creds" true initial_world))
       !! "db-creds" = Some c
       ∧ secret c = JObj [].
Proof.
  apply (fetch_result_cached sample_parse sample_buffer sample_clock
           sample_upstream "db-creds" true initial_world (JObj [])).
  reflexivity.
Defined.

Lemma stale_entry_no_fallback_witness :
  fst (sample_getSecret "gone" true stale_world)
  = inr (new_Error "Secret 'gone' not found")
  ∧ secretCache (snd (sample_getSecret "gone" true stale_world)) !! "gone"
    = Some (mkEntry (JStr "old") 0).
Proof.
  apply (stale_entry_no_fallback sample_parse sample_buffer sample_clock
           sample_upstream "gone" stale_world (mkEntry (JStr "old") 0)
           not_found_error).
  - reflexivity.
  - unfold CACHE_TTL, sample_clock. simpl. lia.
  - reflexivity.
Defined.

Lemma raised_errors_plain_witness :
  error_name (new_Error "Secret 'gone' not found") = "Error"
  ∧ error_statusCode (new_Error "Secret 'gone' not found") = None
  ∧ error_status (new_Error "Secret 'gone' not found") = None
  ∧ error_message (new_Error "Secret 'gone' not found") ≠ "".
Proof.
  apply (raised_errors_plain sample_parse sample_buffer sample_clock
           sample_upstream "gone" true initial_world).
  reflexivity.
Defined.

Lemma batch_sends_per_name_witness :
  sent (snd (sample_getMultipleSecrets ["db-creds"; "db-creds"] false [1%nat]
               initial_world))
  = ["db-creds"; "db-creds"].
Proof.
  destruct (batch_sends_per_name sample_parse sample_buffer sample_clock
              sample_upstream ["db-creds"; "db-creds"] false [1%nat]
              initial_world) as (commands & Hsent & _ & Hall).
  rewrite Hsent, Hall; [reflexivity|by left].
Defined.

Lemma batch_cache_effect_witness :
  is_Some (secretCache
             (snd (sample_getMultipleSecrets ["db-creds"; "gone"] true []
                     initial_world)) !! "db-creds").
Proof.
  apply (batch_cache_effect sample_parse sample_buffer sample_clock
           sample_upstream ["db-creds"; "gone"] true [] initial_world
           "db-creds") with (v := JObj []).
  vm_compute. left.
Defined.

Lemma post_batch_accepts_witness :
  ∃ batch w',
    sample_getMultipleSecrets ["gone"] true [] initial_world = (inl batch, w')
    ∧ sample_post_batch (JObj [("names", JArr [JStr "gone"])]) [] initial_world
      = Some (mkRes 200 (BatchBody batch), w').
Proof.
  apply (post_batch_accepts sample_parse sample_buffer false sample_clock
           sample_upstream (JObj [("names", JArr [JStr "gone"])])
           [JStr "gone"] ["gone"] [] initial_world).
  - reflexivity.
  - discriminate.
  - reflexivity.
Defined.

Lemma malformed_name_witness :
  res_status
    (fst (get_name sample_parse sample_buffer strict_decodeURIComponent false
            sample_clock sample_upstream "%" None initial_world)) = 500
  ∧ snd (get_name sample_parse sample_buffer strict_decodeURIComponent false
           sample_clock sample_upstream "%" None initial_world)
    = initial_world.
Proof.
  apply (malformed_name sample_parse sample_buffer strict_decodeURIComponent
           false sample_clock sample_upstream "%" None initial_world).
  reflexivity.
Defined.

Lemma errorHandler_status_witness :
  res_status (errorHandler false (mkError "BadRequest" "" (Some 0) (Some 400)))
  = 400.
Proof.
  destruct (errorHandler_status false
              (mkError "BadRequest" "" (Some 0) (Some 400)))
    as (status & message & Heq & _ & _ & _ & _ & Hstatus & _).
  rewrite Heq. simpl. apply (Hstatus 400).
  - by right.
  - reflexivity.
  - discriminate.
Defined.

Lemma list_failure_witness :
  sample_get_list (Some (QueryText "5"))
  = inr (mkRes 500
           (ErrorEnvelope
              "Access denied to list secrets. Check IAM role permissions."
              500 false)).
Proof.
  destruct (list_failure false sample_list_upstream sample_parseInt
              (Some (QueryText "5")) access_denied_error)
    as (message & Heq & Hdenied & _); [reflexivity|].
  rewrite Heq, Hdenied; reflexivity.
Defined.

Lemma list_success_witness :
  ∃ body,
    sample_get_list (Some (QueryText "0")) = inl body
    ∧ list_secrets body = []
    ∧ list_count body = 0%nat.
Proof.
  destruct (list_success false sample_list_upstream sample_parseInt
              (Some (QueryText "0")) (mkListResponse None))
    as (body & Heq & _ & _ & Hnone); [reflexivity|].
  exists body. split; [exact Heq|]. by apply Hnone.
Defined.

Lemma cache_sound_reachable_witness :
  "db-creds" ∈ sent (sample_run [Op_getSecret "db-creds" true;
                                 Op_clearSecretCache "gone";
                                 Op_getSecret_start "db-creds" false;
                                 Op_getSecret_resume 1] initial_world)
  ∧ ∃ k, (k < ticks (sample_run [Op_getSecret "db-creds" true;
                                  Op_clearSecretCache "gone";
                                  Op_getSecret_start "db-creds" false;
                                  Op_getSecret_resume 1] initial_world))%nat
         ∧ timestamp (mkEntry (JObj []) 60000) = sample_clock k.
Proof.
  apply (cache_sound_reachable sample_parse sample_buffer sample_clock
           sample_upstream
           [Op_getSecret "db-creds" true; Op_clearSecretCache "gone";
            Op_getSecret_start "db-creds" false; Op_getSecret_resume 1]
           "db-creds" (mkEntry (JObj []) 60000)).
  reflexivity.
Defined.

Lemma fetches_never_evict_witness :
  is_Some (secretCache
             (sample_run [Op_getSecret "gone" true;
                          Op_getMultipleSecrets ["gone"; "db-creds"] false [];
                          Op_getSecret_resume 0] stale_world) !! "gone").
Proof.
  apply (fetches_never_evict sample_parse sample_buffer sample_clock
           sample_upstream).
  - reflexivity.
  - exists (mkEntry (JStr "old") 0). reflexivity.
Defined.

Lemma batch_collects_witness :
  ∃ batch w',
    sample_getMultipleSecrets ["db-creds"; "B"] true [1%nat] initial_world
    = (inl batch, w')
    ∧ own (secrets batch) !! "db-creds" = Some (JObj [])
    ∧ ∃ errs, errors batch = Some errs
              ∧ own errs !! "B" = Some (JStr "Secret 'B' not found").
Proof.
  destruct (batch_collects sample_parse sample_buffer sample_clock
              sample_upstream ["db-creds"; "B"] true [1%nat] initial_world)
    as (batch & w' & Hrun & _ & _ & _ & _ & _ & _).
  - intros Hin.
    repeat (apply elem_of_cons in Hin as [Hin|Hin]; [discriminate|]).
    by apply elem_of_nil in Hin.
  - exists batch, w'. split; [exact Hrun|].
    vm_compute in Hrun. injection Hrun as <- _. vm_compute.
    split; [reflexivity|]. eexists. split; reflexivity.
Defined.
